(** * N-Queens as a binary CSP: AC-3 filtering and MRV/LCV backtracking

    A shallow embedding of [NQueensCSP.py].  The class [NQueensCSP] keeps two
    attributes, [self.domains] and [self.constraints]; its methods become
    functions in a state-and-exception monad over a record holding the two.
    The [assignment] dictionary that [_backtrack] mutates in place is threaded
    explicitly next to it. *)

From Stdlib Require Import ZArith List Lia Bool Permutation Sorted.
From stdpp Require Import base tactics option list gmap strings.

Local Open Scope Z_scope.
Local Open Scope nat_scope.

(** ** Outcomes of a Python call *)

(** The two built-in exceptions the code can raise: a dictionary subscript
    with an absent key, and [min] of an empty sequence or [list.remove] of
    an absent element. *)
Inductive exn : Set :=
| KeyError
| ValueError.

(** A call returns, raises, or (in the model only) exhausts the recursion
    budget given to a [while] loop or to a recursive method. *)
Inductive outcome (A : Type) : Type :=
| Ret (a : A)
| Raise (e : exn)
| OutOfFuel.

Arguments Ret {A} a.
Arguments Raise {A} e.
Arguments OutOfFuel {A}.

(** ** The object state *)

(** [self.domains] is built by [read_input] as [{i: list(range(n)) for i in
    range(n)}] and no method adds or deletes a key, so the dictionary is
    kept as the list of its values in key order: position [i] is
    [self.domains[i]], [len(self.domains)] is the length, and a subscript
    past the end is Python's [KeyError].  Rows are Python integers. *)
Record NQueensCSP : Type := mkCSP {
  domains : list (list Z);
  constraints : list (nat * nat)
}.

(** [__init__]: [self.domains = {}], [self.constraints = []]. *)
Definition __init__ : NQueensCSP := mkCSP [] [].

(** Methods run against [self] and hand it back. *)
Definition M (A : Type) : Type := NQueensCSP -> outcome (A * NQueensCSP).

Definition ret {A} (a : A) : M A := fun self => Ret (a, self).

Definition raise {A} (e : exn) : M A := fun _ => Raise e.

Definition bind {A B} (m : M A) (k : A -> M B) : M B :=
  fun self =>
    match m self with
    | Ret (a, self') => k a self'
    | Raise e => Raise e
    | OutOfFuel => OutOfFuel
    end.

Notation "'do' x <- m ;; k" := (bind m (fun x => k))
  (at level 10, x name, m at level 99, k at level 200).
Notation "'do' ' p <- m ;; k" := (bind m (fun x => match x with p => k end))
  (at level 10, p pattern, m at level 99, k at level 200).
Notation "'exec' m ;; k" := (bind m (fun _ => k))
  (at level 10, m at level 99, k at level 200).

Definition gets {A} (f : NQueensCSP -> A) : M A := fun self => Ret (f self, self).

(** [self.domains[var]] as an expression. *)
Definition get_domain (var : nat) : M (list Z) :=
  fun self =>
    match domains self !! var with
    | Some D => Ret (D, self)
    | None => Raise KeyError
    end.

(** In-place update of the list object stored at [self.domains[var]]. *)
Definition set_domain (var : nat) (D : list Z) : M unit :=
  fun self => Ret (tt, mkCSP (<[var := D]> (domains self)) (constraints self)).

(** [range(n)] as rows. *)
Definition range (n : nat) : list Z := Z.of_nat <$> seq 0 n.

(** [[(i, j) for i in range(n) for j in range(n) if i != j]]. *)
Definition all_arcs (n : nat) : list (nat * nat) :=
  flat_map (fun i =>
    flat_map (fun j => if negb (i =? j) then [(i, j)] else []) (seq 0 n))
    (seq 0 n).

(** The object [read_input] leaves behind for a board of size [n]: lines
    28 and 30. *)
Definition initial (n : nat) : NQueensCSP :=
  mkCSP ((fun _ => range n) <$> seq 0 n) (all_arcs n).

(** [read_input], from the point where [queen_cols] and [n] are known.
    Both branches (the parsed file, one integer per line, and the random
    board of the size typed in) produce a list of [n] columns, and only its
    length reaches the engine. *)
Definition read_input (queen_cols : list Z) : M (list Z) :=
  fun _ =>
    let n := length queen_cols in
    Ret (queen_cols, initial n).

(** ** Consistency of a value with an assignment *)

(** One iteration's test in [is_consistent]: the pair attacks. *)
Definition attacks (var : nat) (val : Z) (variable : nat) (value : Z) : bool :=
  (val =? value)%Z
  || (Z.abs (val - value) =? Z.abs (Z.of_nat var - Z.of_nat variable))%Z.

(** [is_consistent]: the loop over [assignment.items()] returns [False] at
    the first attacking entry; the answer does not depend on the order in
    which the entries are visited. *)
Definition is_consistent (variable : nat) (value : Z) (assignment : gmap nat Z)
  : bool :=
  forallb (fun '(var, val) => negb (attacks var val variable value))
          (map_to_list assignment).

(** ** Arc revision *)

(** [list.remove(x)]: drops the first element equal to [x]; [None] is
    Python's [ValueError]. *)
Fixpoint py_remove (x : Z) (l : list Z) : option (list Z) :=
  match l with
  | [] => None
  | y :: l' =>
      if (y =? x)%Z then Some l'
      else match py_remove x l' with
           | Some r => Some (y :: r)
           | None => None
           end
  end.

(** The condition of line 74.  The inner generator rebinds [val_j], so the
    outer loop over [self.domains[var_j]] evaluates the same test each time:
    [not any(val_i == val_j for val_j in self.domains[var_j])]. *)
Definition no_support (val_i : Z) (Dj : list Z) : bool :=
  forallb (fun _ => negb (existsb (fun val_j => (val_i =? val_j)%Z) Dj)) Dj.

(** One iteration of the [for val_i in self.domains[var_i][:]] loop. *)
Definition revise_body (var_i var_j : nat) (val_i : Z) (revised : bool)
  : M bool :=
  do Dj <- get_domain var_j ;;
  if no_support val_i Dj then
    do Di <- get_domain var_i ;;
    match py_remove val_i Di with
    | Some Di' => exec set_domain var_i Di' ;; ret true
    | None => raise ValueError
    end
  else ret revised.

Fixpoint revise_loop (var_i var_j : nat) (vals : list Z) (revised : bool)
  : M bool :=
  match vals with
  | [] => ret revised
  | val_i :: vals' =>
      do revised' <- revise_body var_i var_j val_i revised ;;
      revise_loop var_i var_j vals' revised'
  end.

(** [revise]: the loop runs over a copy of [self.domains[var_i]] taken
    before the first iteration. *)
Definition revise (var_i var_j : nat) : M bool :=
  do copy <- get_domain var_i ;;
  revise_loop var_i var_j copy false.

(** ** AC-3 *)

(** The [for var_k, _ in self.constraints] loop of [AC3]: one append per
    constraint whose first component differs from [var_j]. *)
Definition requeue (var_i var_j : nat) (cs : list (nat * nat))
  : list (nat * nat) :=
  flat_map (fun '(var_k, _) =>
              if negb (var_k =? var_j) then [(var_k, var_i)] else []) cs.

(** The body of the [while queue] loop, after [queue.popleft()] has split
    the deque into [arc] and [queue]: [inl b] is [return b], [inr q] goes
    round the loop with deque [q]. *)
Definition AC3_body (arc : nat * nat) (queue : list (nat * nat))
  : M (bool + list (nat * nat)) :=
  let '(var_i, var_j) := arc in
  do revised <- revise var_i var_j ;;
  if revised then
    do Di <- get_domain var_i ;;
    match Di with
    | [] => ret (inl false)
    | _ :: _ =>
        do cs <- gets constraints ;;
        ret (inr (queue ++ requeue var_i var_j cs))
    end
  else ret (inr queue).

Fixpoint AC3_loop (fuel : nat) (queue : list (nat * nat)) : M bool :=
  match queue with
  | [] => ret true
  | arc :: queue' =>
      match fuel with
      | O => fun _ => OutOfFuel
      | S fuel' =>
          do r <- AC3_body arc queue' ;;
          match r with
          | inl b => ret b
          | inr q => AC3_loop fuel' q
          end
      end
  end.

(** Number of values left in all domains together. *)
Definition total_size (self : NQueensCSP) : nat :=
  list_sum (map (@length Z) (domains self)).

(** Iterations granted to the [while] loop; [AC3_terminates] shows that the
    loop always stops within them. *)
Definition AC3_budget (self : NQueensCSP) : nat :=
  length (constraints self)
  + total_size self * S (length (constraints self)).

Definition AC3 : M bool :=
  fun self => AC3_loop (AC3_budget self) (constraints self) self.

(** ** Heuristics *)

(** [(len(self.domains[var]), -var)]; [var] comes from
    [range(len(self.domains))], so the subscript is defined. *)
Definition mrv_key (self : NQueensCSP) (var : nat) : nat * Z :=
  (length (domains self !!! var), (- Z.of_nat var)%Z).

(** Python's [<] on the key tuples. *)
Definition key_lt (k1 k2 : nat * Z) : bool :=
  (k1.1 <? k2.1) || ((k1.1 =? k2.1) && (k1.2 <? k2.2)%Z).

(** [min(..., key=...)] keeps the first element whose key is smallest. *)
Fixpoint min_by {A} (key : A -> nat * Z) (best : A) (l : list A) : A :=
  match l with
  | [] => best
  | x :: l' => min_by key (if key_lt (key x) (key best) then x else best) l'
  end.

Definition unassigned_vars (self : NQueensCSP) (assignment : gmap nat Z)
  : list nat :=
  filter (fun var => assignment !! var = None) (seq 0 (length (domains self))).

Definition select_unassigned_variable (assignment : gmap nat Z) : M nat :=
  fun self =>
    match unassigned_vars self assignment with
    | [] => Raise ValueError
    | var :: vars => Ret (min_by (mrv_key self) var vars, self)
    end.

(** The closure [lcv_score] of [order_domain_values]; it reads
    [self.domains] and the enclosing [variable] and [assignment]. *)
Definition lcv_score (self : NQueensCSP) (variable : nat)
    (assignment : gmap nat Z) (value : Z) : nat :=
  fold_left (fun count neighbor_var =>
    if negb (neighbor_var =? variable)
       && bool_decide (assignment !! neighbor_var = None)
    then
      fold_left (fun count neighbor_val =>
        if is_consistent neighbor_var neighbor_val
             (<[variable := value]> assignment)
        then S count else count)
        (domains self !!! neighbor_var) count
    else count)
    (seq 0 (length (domains self))) 0.

(** [sorted(..., key=key, reverse=True)]: a stable sort, largest key
    first; values with equal keys keep their order. *)
Fixpoint insert_desc (key : Z -> nat) (x : Z) (l : list Z) : list Z :=
  match l with
  | [] => [x]
  | y :: l' => if key x <? key y then y :: insert_desc key x l' else x :: l
  end.

Definition sorted_desc (key : Z -> nat) (l : list Z) : list Z :=
  foldr (insert_desc key) [] l.

Definition order_domain_values (variable : nat) (assignment : gmap nat Z)
  : M (list Z) :=
  do D <- get_domain variable ;;
  do self <- gets id ;;
  ret (sorted_desc (lcv_score self variable assignment) D).

(** ** Backtracking search *)

(** The [for value in ordered_values] loop of [_backtrack].  [rec] is the
    recursive call.  The second component of the result is the content of
    the [assignment] dictionary when the call returns; on success the
    returned object is that same dictionary. *)
Fixpoint try_values
    (rec : gmap nat Z -> M (option (gmap nat Z) * gmap nat Z))
    (variable : nat) (values : list Z) (assignment : gmap nat Z)
  : M (option (gmap nat Z) * gmap nat Z) :=
  match values with
  | [] => ret (None, assignment)
  | value :: values' =>
      if is_consistent variable value assignment then
        do '(result, assignment') <- rec (<[variable := value]> assignment) ;;
        match result with
        | Some _ => ret (result, assignment')
        | None =>
            (* del assignment[variable] *)
            match assignment' !! variable with
            | Some _ =>
                try_values rec variable values' (delete variable assignment')
            | None => raise KeyError
            end
        end
      else try_values rec variable values' assignment
  end.

Fixpoint _backtrack (fuel : nat) (assignment : gmap nat Z)
  : M (option (gmap nat Z) * gmap nat Z) :=
  match fuel with
  | O => fun _ => OutOfFuel
  | S fuel' =>
      do n <- gets (fun self => length (domains self)) ;;
      if size assignment =? n then ret (Some assignment, assignment)
      else
        do variable <- select_unassigned_variable assignment ;;
        do ordered_values <- order_domain_values variable assignment ;;
        try_values (_backtrack fuel') variable ordered_values assignment
  end.

(** [backtracking_search]: [self._backtrack({})].  Every recursive call
    has one more column assigned, so the depth is at most [n + 1]
    ([backtrack_returns]); the interpreter's own recursion limit is not
    part of the model. *)
Definition backtracking_search : M (option (gmap nat Z)) :=
  do n <- gets (fun self => length (domains self)) ;;
  do '(result, _) <- _backtrack (S n) ∅ ;;
  ret result.

(** ** The driver *)

(** What [print] writes: a message, or the tuple [(i+1, assignment[i]+1)]. *)
Inductive printed : Type :=
| PrintStr (s : string)
| PrintPair (column row : Z).

Fixpoint print_rows (assignment : gmap nat Z) (cols : list nat)
  : M (list printed) :=
  match cols with
  | [] => ret []
  | i :: cols' =>
      match assignment !! i with
      | None => raise KeyError
      | Some row =>
          do rest <- print_rows assignment cols' ;;
          ret (PrintPair (Z.of_nat i + 1) (row + 1) :: rest)
      end
  end.

(** [solve_nqueens] from the [if self.AC3():] on, with the search phase it
    calls as a parameter. *)
Definition solve_with (search : M (option (gmap nat Z))) (queen_cols : list Z)
  : M (list printed) :=
  do ok <- AC3 ;;
  if ok then
    do assignment <- search ;;
    match assignment with
    | None => ret [PrintStr "No solution found"]
    | Some a =>
        do rows <- print_rows a (seq 0 (length queen_cols)) ;;
        ret (PrintStr "Solution found" :: rows)
    end
  else ret [PrintStr "No solution found."].

Definition solve_nqueens (queen_cols : list Z) : M (list printed) :=
  do queen_cols <- read_input queen_cols ;;
  solve_with backtracking_search queen_cols.

(** The value a call returns, without the object state. *)
Definition outs {A} (o : outcome (A * NQueensCSP)) : outcome A :=
  match o with
  | Ret (a, _) => Ret a
  | Raise e => Raise e
  | OutOfFuel => OutOfFuel
  end.

(** * Vocabulary of the properties *)

(** The flag [revise] returns for a domain [D] revised against [Dj]. *)
Definition revised_flag (Dj D : list Z) : bool :=
  negb (bool_decide (Forall (fun v => v ∈ Dj) D)).

(** Every domain of [self'] is a subsequence of the domain [self] has for
    the same variable. *)
Definition shrinks (self' self : NQueensCSP) : Prop :=
  Forall2 sublist (domains self') (domains self).

(** Two queens, in column [i] on row [vi] and in column [j] on row [vj],
    do not attack each other: no shared row, no shared diagonal. *)
Definition compatible (i : nat) (vi : Z) (j : nat) (vj : Z) : Prop :=
  vi <> vj /\ Z.abs (vi - vj) <> Z.abs (Z.of_nat i - Z.of_nat j).

(** A placement in which no two queens attack each other. *)
Definition non_attacking (assignment : gmap nat Z) : Prop :=
  forall i j ri rj,
    assignment !! i = Some ri -> assignment !! j = Some rj -> i <> j ->
    compatible i ri j rj.

(** Python's [<=] on the key tuples. *)
Definition key_le (k1 k2 : nat * Z) : Prop :=
  k1.1 < k2.1 \/ (k1.1 = k2.1 /\ (k1.2 <= k2.2)%Z).

(** [x] is tried no later than [y]: its key is at least as large. *)
Definition desc (key : Z -> nat) (x y : Z) : Prop := key y <= key x.

(** The tentative assignment [{selected: v} ∪ assignment]. *)
Definition tentative (variable : nat) (v : Z) (assignment : gmap nat Z)
  : gmap nat Z :=
  <[variable := v]> assignment.

(** Row [w] in column [u] is compatible with every entry of an
    assignment. *)
Definition consistent_with (u : nat) (w : Z) (assignment : gmap nat Z) : Prop :=
  map_Forall (fun x r => compatible x r u w) assignment.

#[global] Instance compatible_dec i vi j vj : Decision (compatible i vi j vj).
Proof. unfold compatible. apply _. Defined.

#[global] Instance consistent_with_dec u w a : Decision (consistent_with u w a).
Proof. unfold consistent_with. apply _. Defined.

(** The combinations [(u, w)]: [u] an unassigned variable other than the
    selected one, [w] an entry of [u]'s domain. *)
Definition lcv_candidates (self : NQueensCSP) (variable : nat)
    (assignment : gmap nat Z) : list (nat * Z) :=
  flat_map (fun u => map (pair u) (domains self !!! u))
    (filter (fun u => u <> variable /\ assignment !! u = None)
            (seq 0 (length (domains self)))).

(** The LCV score as the design describes it: how many of these
    combinations are consistent with the tentative assignment. *)
Definition lcv_count (self : NQueensCSP) (variable : nat)
    (assignment : gmap nat Z) (v : Z) : nat :=
  length (filter (fun p => consistent_with p.1 p.2
                             (tentative variable v assignment))
                 (lcv_candidates self variable assignment)).

(** A partial assignment: every key is a variable of the problem. *)
Definition keys_in_range (n : nat) (assignment : gmap nat Z) : Prop :=
  forall k, is_Some (assignment !! k) -> k < n.

(** What a returning call of [_backtrack] on [a] guarantees: [self] is
    untouched; on [None] the dictionary is as it was at entry; on success
    the returned object is the dictionary, which extends [a] and has one
    entry per variable. *)
Definition backtrack_post (self : NQueensCSP) (a : gmap nat Z)
    (res : outcome ((option (gmap nat Z) * gmap nat Z) * NQueensCSP)) : Prop :=
  match res with
  | Ret ((r, s), self') =>
      self' = self
      /\ match r with
         | None => s = a
         | Some x =>
             x = s /\ a ⊆ x /\ size x = length (domains self)
             /\ (non_attacking a -> non_attacking x)
             /\ (keys_in_range (length (domains self)) a ->
                 keys_in_range (length (domains self)) x)
         end
  | Raise _ => True
  | OutOfFuel => True
  end.

(** A complete placement on an [n]-board in which no two queens share a
    row or a diagonal. *)
Definition valid_solution (n : nat) (a : gmap nat Z) : Prop :=
  (forall i, i < n -> is_Some (a !! i))
  /\ forall i j row_i row_j,
       a !! i = Some row_i -> a !! j = Some row_j -> i <> j ->
       row_i <> row_j
       /\ Z.abs (row_i - row_j) <> Z.abs (Z.of_nat i - Z.of_nat j).

(** The assignment found for the 4-board: columns 0..3 on rows 2, 0, 3, 1. *)
Definition solution_4 : gmap nat Z :=
  list_to_map [(0, 2%Z); (1, 0%Z); (2, 3%Z); (3, 1%Z)].

(** The lines [solve_nqueens] prints for a solution [a] of an [n]-board. *)
Definition solution_report (n : nat) (a : gmap nat Z) : list printed :=
  PrintStr "Solution found"
  :: ((fun i => PrintPair (Z.of_nat i + 1) (a !!! i + 1)) <$> seq 0 n).

(** The assignments found for the 1-board and the 8-board. *)
Definition solution_1 : gmap nat Z := list_to_map [(0, 0%Z)].

Definition solution_8 : gmap nat Z :=
  list_to_map [(0, 4%Z); (1, 1%Z); (2, 3%Z); (3, 6%Z);
               (4, 2%Z); (5, 7%Z); (6, 5%Z); (7, 0%Z)].

(** Every variable of the [n]-board has a domain, and each domain is a
    subsequence of [range(n)]: its values are distinct, lie in [0, n), and
    keep their initial order. *)
Definition domain_inv (n : nat) (self : NQueensCSP) : Prop :=
  length (domains self) = n
  /\ Forall (fun D => sublist D (range n)) (domains self).

(** The constraints are arcs between two different variables of the
    problem. *)
Definition well_formed (self : NQueensCSP) : Prop :=
  forall i j,
    (i, j) ∈ constraints self ->
    i < length (domains self) /\ j < length (domains self) /\ i <> j.

(** Every value of [Xi]'s domain occurs in [Xj]'s domain: the arcs that
    [revise] leaves alone. *)
Definition supported (self : NQueensCSP) (i j : nat) : Prop :=
  forall v, v ∈ domains self !!! i -> v ∈ domains self !!! j.

(** The value [v] occurs in every domain. *)
Definition common_value (self : NQueensCSP) (v : Z) : Prop :=
  Forall (fun D => v ∈ D) (domains self).

#[global] Instance common_value_dec self v : Decision (common_value self v).
Proof. unfold common_value. apply _. Defined.

(** What a run of [AC3] keeps true of the object, relative to the state
    [self0] it started from: no variable is added or dropped, each domain
    is its initial domain without every occurrence of the values it has
    lost, and a value that all initial domains share is still in all of
    them. *)
Definition pruned_from (self0 self : NQueensCSP) : Prop :=
  length (domains self) = length (domains self0)
  /\ (forall i, i < length (domains self0) ->
        domains self !!! i
        = filter (fun v => v ∈ domains self !!! i) (domains self0 !!! i))
  /\ (forall v, common_value self0 v -> common_value self v).

(** A complete non-attacking placement whose rows are entries of the
    domains. *)
Definition solution_in_domains (self : NQueensCSP) (x : gmap nat Z) : Prop :=
  valid_solution (length (domains self)) x
  /\ forall k r,
       x !! k = Some r -> k < length (domains self) ->
       r ∈ domains self !!! k.


(** Each entry of [x] is an entry of [a], or gives a variable a row of its
    domain. *)
Definition drawn_from (self : NQueensCSP) (a x : gmap nat Z) : Prop :=
  forall k r,
    x !! k = Some r ->
    a !! k = Some r
    \/ (k < length (domains self) /\ r ∈ domains self !!! k).

(** * Properties *)

Arguments revise : simpl never.
Arguments AC3_body : simpl never.

(** ** Sequencing *)

Lemma bind_Ret {A B} (m : M A) (k : A -> M B) self a self' :
  m self = Ret (a, self') -> bind m k self = k a self'.
Proof. intros H. unfold bind. by rewrite H. Qed.

Lemma bind_Ret_inv {A B} (m : M A) (k : A -> M B) self r :
  bind m k self = Ret r ->
  exists a self', m self = Ret (a, self') /\ k a self' = Ret r.
Proof.
  unfold bind. destruct (m self) as [[a self']| |]; try discriminate.
  intros H. by exists a, self'.
Qed.

Lemma get_domain_Some var self D :
  domains self !! var = Some D -> get_domain var self = Ret (D, self).
Proof. intros H. unfold get_domain. by rewrite H. Qed.

Lemma get_domain_inv var self D self' :
  get_domain var self = Ret (D, self') ->
  domains self !! var = Some D /\ self' = self.
Proof.
  unfold get_domain. destruct (domains self !! var); [|discriminate].
  intros [= -> ->]. done.
Qed.

(** ** What [revise] computes *)

Lemma no_support_spec v Dj : no_support v Dj = true <-> v ∉ Dj.
Proof.
  unfold no_support.
  assert (Hex : existsb (fun w => (v =? w)%Z) Dj = true <-> v ∈ Dj).
  { rewrite existsb_exists. split.
    - intros (w & Hin & Heq). apply Z.eqb_eq in Heq. subst w.
      by apply list_elem_of_In.
    - intros Hin. exists v. split; [by apply list_elem_of_In|apply Z.eqb_refl]. }
  destruct Dj as [|w Dj'].
  - simpl. split; [intros _; apply not_elem_of_nil|done].
  - rewrite forallb_forall. split.
    + intros Hall Hin. specialize (Hall w (or_introl eq_refl)).
      apply negb_true_iff in Hall. apply Hex in Hin. congruence.
    + intros Hn x _. apply negb_true_iff, not_true_is_false.
      intros E. apply Hn, Hex, E.
Qed.

Lemma py_remove_app kept v rest :
  v ∉ kept -> py_remove v (kept ++ v :: rest) = Some (kept ++ rest).
Proof.
  induction kept as [|y kept IH]; simpl; intros Hn.
  - by rewrite Z.eqb_refl.
  - destruct (y =? v)%Z eqn:E.
    + apply Z.eqb_eq in E. subst y. exfalso. apply Hn. by left.
    + rewrite IH; [done|]. intros Hin. apply Hn. by right.
Qed.

Lemma filter_Forall_id (P : Z -> Prop) `{!forall x, Decision (P x)} l :
  Forall P l -> filter P l = l.
Proof.
  induction 1 as [|x l Hx _ IH]; [done|].
  rewrite filter_cons_True; [|exact Hx]. by f_equal.
Qed.

Lemma revise_loop_other i j Dj vals :
  forall kept revised self,
    i <> j ->
    domains self !! j = Some Dj ->
    domains self !! i = Some (kept ++ vals) ->
    Forall (fun v => v ∈ Dj) kept ->
    revise_loop i j vals revised self =
      Ret (revised || revised_flag Dj vals,
           mkCSP (<[i := kept ++ filter (fun v => v ∈ Dj) vals]> (domains self))
                 (constraints self)).
Proof.
  induction vals as [|v vals IH]; intros kept revised self Hij Hj Hi Hkept.
  - simpl. unfold ret, revised_flag. rewrite orb_false_r.
    rewrite list_insert_id; [by destruct self|done].
  - simpl. unfold revise_body.
    rewrite (bind_Ret _ _ self
               (if no_support v Dj then true else revised)
               (if no_support v Dj
                then mkCSP (<[i := kept ++ vals]> (domains self))
                           (constraints self)
                else self)).
    2:{ rewrite (bind_Ret _ _ _ _ _ (get_domain_Some _ _ _ Hj)).
        destruct (no_support v Dj) eqn:Hns; [|done].
        rewrite (bind_Ret _ _ _ _ _ (get_domain_Some _ _ _ Hi)).
        apply no_support_spec in Hns.
        rewrite py_remove_app; [done|].
        intros Hin. apply Hns. by eapply Forall_forall in Hkept. }
    destruct (no_support v Dj) eqn:Hns.
    + apply no_support_spec in Hns.
      assert (Hlt : i < length (domains self)) by (by eapply lookup_lt_Some).
      rewrite (IH kept); simpl; try done.
      * rewrite list_insert_insert_eq, filter_cons_False; [|exact Hns].
        f_equal. f_equal. unfold revised_flag.
        rewrite (bool_decide_eq_false_2 (Forall _ (v :: vals)));
          [by rewrite orb_true_r|].
        intros HF. apply Hns. by inversion HF.
      * by rewrite list_lookup_insert_ne.
      * by rewrite list_lookup_insert_eq.
    + assert (Hin : v ∈ Dj).
      { destruct (decide (v ∈ Dj)) as [|Hn]; [done|].
        apply no_support_spec in Hn. congruence. }
      rewrite (IH (kept ++ [v])); try done.
      * rewrite filter_cons_True; [|exact Hin]. rewrite <- app_assoc. simpl.
        f_equal. f_equal. f_equal. unfold revised_flag. f_equal.
        apply bool_decide_ext. split; [by constructor|by inversion 1].
      * by rewrite <- app_assoc.
      * apply Forall_app. split; [done|by constructor].
Qed.

(** Revising a variable against itself: the test reads the list that the
    loop is shrinking, and every value is found in it. *)
Lemma revise_loop_self i D vals :
  forall revised self,
    domains self !! i = Some D ->
    Forall (fun v => v ∈ D) vals ->
    revise_loop i i vals revised self = Ret (revised, self).
Proof.
  induction vals as [|v vals IH]; intros revised self Hi HF; [done|].
  inversion HF as [|? ? Hv HF']; subst.
  simpl. unfold revise_body.
  rewrite (bind_Ret _ _ self revised self).
  - by apply IH.
  - rewrite (bind_Ret _ _ _ _ _ (get_domain_Some _ _ _ Hi)).
    destruct (no_support v D) eqn:Hns; [|done].
    by apply no_support_spec in Hns.
Qed.

(** [revise(var_i, var_j)] keeps exactly the values of [Xi]'s domain that
    also occur in [Xj]'s domain, in their order, and reports whether one
    was dropped. *)
Lemma revise_spec i j Di Dj self :
  domains self !! i = Some Di ->
  domains self !! j = Some Dj ->
  revise i j self =
    Ret (revised_flag Dj Di,
         mkCSP (<[i := filter (fun v => v ∈ Dj) Di]> (domains self))
               (constraints self)).
Proof.
  intros Hi Hj. unfold revise.
  rewrite (bind_Ret _ _ _ _ _ (get_domain_Some _ _ _ Hi)).
  destruct (decide (i = j)) as [->|Hij].
  - assert (Dj = Di) by congruence. subst Dj.
    assert (HF : Forall (fun v => v ∈ Di) Di) by (by apply Forall_forall).
    rewrite (revise_loop_self j Di Di) by done.
    unfold revised_flag. rewrite bool_decide_eq_true_2 by done. simpl.
    f_equal. f_equal.
    rewrite filter_Forall_id, list_insert_id by done. by destruct self.
  - by rewrite (revise_loop_other i j Dj Di [] false self).
Qed.

Lemma revise_stable i j Di Dj self :
  domains self !! i = Some Di ->
  domains self !! j = Some Dj ->
  Forall (fun v => v ∈ Dj) Di ->
  revise i j self = Ret (false, self).
Proof.
  intros Hi Hj HF. rewrite (revise_spec i j Di Dj) by done.
  unfold revised_flag. rewrite bool_decide_eq_true_2 by done.
  rewrite filter_Forall_id, list_insert_id by done. by destruct self.
Qed.

(** A call of [revise] that returns has found both domains, unless [Xi]'s
    domain was empty and the loop body never ran. *)
Lemma revise_Ret_inv i j self b self' :
  revise i j self = Ret (b, self') ->
  exists Di Dj,
    domains self !! i = Some Di
    /\ (Di = [] \/ domains self !! j = Some Dj)
    /\ b = revised_flag Dj Di
    /\ self' = mkCSP (<[i := filter (fun v => v ∈ Dj) Di]> (domains self))
                     (constraints self).
Proof.
  intros H.
  destruct (domains self !! i) as [Di|] eqn:Hi.
  2:{ unfold revise, bind, get_domain in H. by rewrite Hi in H. }
  destruct Di as [|v Di].
  - unfold revise in H.
    rewrite (bind_Ret _ _ _ _ _ (get_domain_Some _ _ _ Hi)) in H.
    injection H as <- <-. exists [], []. repeat split; [by left|].
    rewrite filter_nil, list_insert_id by done. by destruct self.
  - destruct (domains self !! j) as [Dj|] eqn:Hj.
    + rewrite (revise_spec i j _ Dj) in H by done. injection H as <- <-.
      exists (v :: Di), Dj. repeat split; by right.
    + unfold revise in H.
      rewrite (bind_Ret _ _ _ _ _ (get_domain_Some _ _ _ Hi)) in H.
      simpl in H. unfold revise_body, bind, get_domain in H.
      by rewrite Hj in H.
Qed.

(** [revise] has no unbounded loop: the budget is never its outcome. *)
Lemma revise_body_fuel i j v revised self :
  revise_body i j v revised self <> OutOfFuel.
Proof.
  unfold revise_body, bind, get_domain, set_domain, ret, raise.
  destruct (domains self !! j); [|done].
  destruct (no_support v l); [|done].
  destruct (domains self !! i); [|done].
  by destruct (py_remove v l0).
Qed.

Lemma revise_loop_fuel i j vals :
  forall revised self, revise_loop i j vals revised self <> OutOfFuel.
Proof.
  induction vals as [|v vals IH]; intros revised self; simpl; [done|].
  unfold bind.
  pose proof (revise_body_fuel i j v revised self).
  destruct (revise_body i j v revised self) as [[]| |]; try done.
Qed.

Lemma revise_fuel i j self : revise i j self <> OutOfFuel.
Proof.
  unfold revise, bind, get_domain.
  destruct (domains self !! i); [|done]. apply revise_loop_fuel.
Qed.

(** ** Domains only shrink *)

Lemma shrinks_refl self : shrinks self self.
Proof. unfold shrinks. reflexivity. Qed.

Lemma shrinks_trans s1 s2 s3 : shrinks s1 s2 -> shrinks s2 s3 -> shrinks s1 s3.
Proof. unfold shrinks. intros. by etrans. Qed.

Lemma total_size_insert (l : list (list Z)) i D D' :
  l !! i = Some D ->
  list_sum (map (@length Z) (<[i := D']> l)) + length D
  = list_sum (map (@length Z) l) + length D'.
Proof.
  revert i. induction l as [|E l IH]; intros [|i] H; simplify_eq/=.
  - lia.
  - specialize (IH i H). lia.
Qed.

Lemma revise_shrinks i j self b self' :
  revise i j self = Ret (b, self') ->
  constraints self' = constraints self
  /\ shrinks self' self
  /\ (if b then total_size self' < total_size self else self' = self).
Proof.
  intros H. apply revise_Ret_inv in H as (Di & Dj & Hi & _ & -> & ->).
  split; [done|]. split.
  - unfold shrinks. simpl.
    rewrite <- (list_insert_id (domains self) i Di) at 2 by done.
    apply Forall2_insert; [reflexivity|apply sublist_filter].
  - unfold revised_flag. case_bool_decide as HF; simpl.
    + rewrite filter_Forall_id, list_insert_id by done. by destruct self.
    + unfold total_size. simpl.
      pose proof (total_size_insert (domains self) i Di
                    (filter (fun v => v ∈ Dj) Di) Hi) as Hsum.
      apply not_Forall_Exists in HF; [|apply _].
      apply Exists_exists in HF as (v & Hv & Hn).
      pose proof (length_filter_lt (fun v => v ∈ Dj) Di v Hv Hn). lia.
Qed.

(** ** The AC-3 loop *)

Lemma AC3_body_inv i j queue self r self' :
  AC3_body (i, j) queue self = Ret (r, self') ->
  exists b,
    revise i j self = Ret (b, self')
    /\ (if b then
          match domains self' !! i with
          | Some [] => r = inl false
          | Some (_ :: _) =>
              r = inr (queue ++ requeue i j (constraints self'))
          | None => False
          end
        else r = inr queue).
Proof.
  unfold AC3_body. intros H.
  apply bind_Ret_inv in H as (b & s1 & Hrev & H). exists b.
  destruct b.
  - apply bind_Ret_inv in H as (Di & s2 & HD & H).
    apply get_domain_inv in HD as [HD ->].
    destruct Di; unfold ret, bind, gets in H; injection H as <- <-;
      rewrite HD; by split.
  - unfold ret in H. injection H as <- <-. by split.
Qed.

Lemma AC3_loop_shrinks fuel :
  forall queue self b self',
    AC3_loop fuel queue self = Ret (b, self') ->
    constraints self' = constraints self /\ shrinks self' self.
Proof.
  induction fuel as [|fuel IH]; intros [|[i j] queue] self b self' H;
    simpl in H; try discriminate;
    try (injection H as <- <-; split; [done|apply shrinks_refl]).
  apply bind_Ret_inv in H as (r & s1 & Hbody & H).
  apply AC3_body_inv in Hbody as (rv & Hrev & _).
  apply revise_shrinks in Hrev as (Hc & Hs & _).
  destruct r as [b0|q].
  - injection H as <- <-. done.
  - apply IH in H as [Hc' Hs']. split; [congruence|by eapply shrinks_trans].
Qed.

Lemma length_requeue i j cs : length (requeue i j cs) <= length cs.
Proof.
  induction cs as [|[k x] cs IH]; simpl; [done|].
  rewrite length_app. destruct (negb (k =? j)); simpl; lia.
Qed.

(** The [while] loop stops: a pass either shortens the queue or removes a
    value, and a removal adds at most [len(self.constraints)] arcs. *)
Lemma AC3_loop_terminates fuel :
  forall queue self,
    length queue + total_size self * S (length (constraints self)) <= fuel ->
    AC3_loop fuel queue self <> OutOfFuel.
Proof.
  induction fuel as [|fuel IH]; intros [|[i j] queue] self Hfuel;
    simpl in *; try done; try lia.
  unfold bind at 1.
  destruct (AC3_body (i, j) queue self) as [[r s1]| |] eqn:Hbody; try done.
  - apply AC3_body_inv in Hbody as (b & Hrev & Hr).
    apply revise_shrinks in Hrev as (Hc & _ & Hsz).
    destruct r as [b0|q]; [by unfold ret|].
    apply IH. rewrite Hc. destruct b.
    + destruct (domains s1 !! i) as [[|]|]; try done.
      injection Hr as ->. rewrite length_app, Hc.
      pose proof (length_requeue i j (constraints self)). nia.
    + injection Hr as ->. subst s1. lia.
  - unfold AC3_body, bind in Hbody.
    pose proof (revise_fuel i j self).
    destruct (revise i j self) as [[[] s1]| |]; try done.
    unfold get_domain in Hbody. by destruct (domains s1 !! i) as [[|]|].
Qed.

Lemma AC3_terminates self : AC3 self <> OutOfFuel.
Proof. apply AC3_loop_terminates. unfold AC3_budget. lia. Qed.

(** A queue of arcs that are all consistent already is drained without a
    removal. *)
Lemma AC3_loop_stable fuel :
  forall queue self,
    Forall (fun arc => revise arc.1 arc.2 self = Ret (false, self)) queue ->
    length queue <= fuel ->
    AC3_loop fuel queue self = Ret (true, self).
Proof.
  induction fuel as [|fuel IH]; intros [|[i j] queue] self HF Hfuel;
    simpl in *; try done; try lia.
  inversion HF as [|? ? Hrev HF']; subst. simpl in Hrev.
  unfold AC3_body.
  rewrite (bind_Ret _ _ _ _ _ (bind_Ret _ _ _ _ _ Hrev)). simpl.
  apply IH; [done|lia].
Qed.

(** ** The non-attack predicate *)

Lemma attacks_compatible var val variable value :
  attacks var val variable value = false <-> compatible var val variable value.
Proof.
  unfold attacks, compatible. rewrite orb_false_iff, !Z.eqb_neq. done.
Qed.

Lemma compatible_sym i vi j vj : compatible i vi j vj -> compatible j vj i vi.
Proof. unfold compatible. lia. Qed.

Lemma is_consistent_spec variable value (assignment : gmap nat Z) :
  is_consistent variable value assignment = true
  <-> forall var val, assignment !! var = Some val ->
                      compatible var val variable value.
Proof.
  unfold is_consistent. rewrite forallb_forall. split.
  - intros H var val Hl. apply attacks_compatible, negb_true_iff.
    apply (H (var, val)). by apply list_elem_of_In, elem_of_map_to_list.
  - intros H [var val] Hin. apply negb_true_iff, attacks_compatible, H.
    by apply elem_of_map_to_list, list_elem_of_In.
Qed.

Lemma non_attacking_empty : non_attacking ∅.
Proof. intros i j ri rj H. by rewrite lookup_empty in H. Qed.

Lemma non_attacking_insert variable value (assignment : gmap nat Z) :
  non_attacking assignment ->
  is_consistent variable value assignment = true ->
  non_attacking (<[variable := value]> assignment).
Proof.
  intros Hna Hc i j ri rj Hi Hj Hij.
  rewrite is_consistent_spec in Hc.
  apply lookup_insert_Some in Hi as [[<- <-]|[Hvi Hi]];
    apply lookup_insert_Some in Hj as [[<- <-]|[Hvj Hj]]; try done.
  - by apply compatible_sym, Hc.
  - by apply Hc.
  - by eapply Hna.
Qed.

(** ** Variable selection *)

Lemma key_lt_false k1 k2 : key_lt k1 k2 = false -> key_le k2 k1.
Proof.
  unfold key_lt, key_le. rewrite orb_false_iff, andb_false_iff.
  rewrite Nat.ltb_ge, Nat.eqb_neq, Z.ltb_ge. lia.
Qed.

Lemma key_lt_true k1 k2 : key_lt k1 k2 = true -> key_le k1 k2.
Proof.
  unfold key_lt, key_le. rewrite orb_true_iff, andb_true_iff.
  rewrite Nat.ltb_lt, Nat.eqb_eq, Z.ltb_lt. lia.
Qed.

Lemma key_le_trans k1 k2 k3 : key_le k1 k2 -> key_le k2 k3 -> key_le k1 k3.
Proof. unfold key_le. lia. Qed.

Lemma key_le_refl k : key_le k k.
Proof. unfold key_le. lia. Qed.

Lemma min_by_elem {A} (key : A -> nat * Z) l :
  forall best, min_by key best l ∈ best :: l.
Proof.
  induction l as [|x l IH]; intros best; simpl; [by left|].
  specialize (IH (if key_lt (key x) (key best) then x else best)).
  apply elem_of_cons in IH as [->|IH].
  - destruct (key_lt _ _); [right; left|left].
  - by do 2 right.
Qed.

Lemma min_by_least {A} (key : A -> nat * Z) l :
  forall best x, x ∈ best :: l -> key_le (key (min_by key best l)) (key x).
Proof.
  induction l as [|y l IH]; intros best x Hx; simpl.
  - apply list_elem_of_singleton in Hx as ->. apply key_le_refl.
  - destruct (key_lt (key y) (key best)) eqn:E.
    + apply elem_of_cons in Hx as [->|Hx]; [|by apply IH].
      eapply key_le_trans; [apply IH; by left|by apply key_lt_true].
    + apply elem_of_cons in Hx as [->|Hx]; [apply IH; by left|].
      apply elem_of_cons in Hx as [->|Hx]; [|apply IH; by right].
      eapply key_le_trans; [apply IH; by left|by apply key_lt_false].
Qed.

Lemma elem_of_unassigned_vars self (assignment : gmap nat Z) var :
  var ∈ unassigned_vars self assignment
  <-> var < length (domains self) /\ assignment !! var = None.
Proof.
  unfold unassigned_vars. rewrite list_elem_of_filter, elem_of_seq.
  intuition lia.
Qed.

Lemma select_unassigned_variable_inv (assignment : gmap nat Z) self v self' :
  select_unassigned_variable assignment self = Ret (v, self') ->
  self' = self
  /\ v ∈ unassigned_vars self assignment
  /\ forall u, u ∈ unassigned_vars self assignment ->
               key_le (mrv_key self v) (mrv_key self u).
Proof.
  unfold select_unassigned_variable.
  destruct (unassigned_vars self assignment) as [|var vars]; [done|].
  intros [= <- <-]. split; [done|]. split.
  - apply min_by_elem.
  - intros u Hu. by apply min_by_least.
Qed.

Lemma select_unassigned_variable_Some (assignment : gmap nat Z) self u :
  u ∈ unassigned_vars self assignment ->
  exists v, select_unassigned_variable assignment self = Ret (v, self).
Proof.
  unfold select_unassigned_variable.
  destruct (unassigned_vars self assignment) as [|var vars]; [|by eexists].
  intros H. by apply elem_of_nil in H.
Qed.

(** ** Value ordering *)

Lemma insert_desc_perm key x l : insert_desc key x l ≡ₚ x :: l.
Proof.
  induction l as [|y l IH]; simpl; [done|].
  destruct (key x <? key y); [|done].
  rewrite IH. apply perm_swap.
Qed.

Lemma sorted_desc_perm key l : sorted_desc key l ≡ₚ l.
Proof.
  induction l as [|x l IH]; simpl; [done|].
  by rewrite insert_desc_perm, IH.
Qed.

Lemma insert_desc_sorted key x l :
  StronglySorted (desc key) l -> StronglySorted (desc key) (insert_desc key x l).
Proof.
  induction 1 as [|y l Hs IH Hy]; simpl.
  - repeat constructor.
  - destruct (key x <? key y) eqn:E.
    + apply Nat.ltb_lt in E. constructor; [done|].
      rewrite insert_desc_perm. constructor; [unfold desc; lia|done].
    + apply Nat.ltb_ge in E. constructor; [by constructor|].
      constructor; [done|].
      eapply Forall_impl; [exact Hy|]. unfold desc. intros; simpl in *; lia.
Qed.

Lemma sorted_desc_sorted key l : StronglySorted (desc key) (sorted_desc key l).
Proof.
  induction l as [|x l IH]; simpl; [constructor|by apply insert_desc_sorted].
Qed.

(** The sort is stable: values with the same key keep their order. *)
Lemma insert_desc_stable key k x l :
  filter (fun v => key v = k) (insert_desc key x l)
  = filter (fun v => key v = k) (x :: l).
Proof.
  induction l as [|y l IH]; simpl; [done|].
  destruct (key x <? key y) eqn:E; [|done].
  apply Nat.ltb_lt in E.
  rewrite (filter_cons _ y), IH, !filter_cons.
  repeat case_decide; try done; lia.
Qed.

Lemma sorted_desc_stable key k l :
  filter (fun v => key v = k) (sorted_desc key l)
  = filter (fun v => key v = k) l.
Proof.
  induction l as [|x l IH]; simpl; [done|].
  by rewrite insert_desc_stable, !filter_cons, IH.
Qed.

Lemma is_consistent_with u w (a : gmap nat Z) :
  is_consistent u w a = true <-> consistent_with u w a.
Proof. apply is_consistent_spec. Qed.

Lemma count_fold (u : nat) (t : gmap nat Z) (l : list Z) :
  forall c,
    fold_left (fun count w => if is_consistent u w t then S count else count)
              l c
    = c + length (filter (fun p : nat * Z => consistent_with p.1 p.2 t)
                         (map (pair u) l)).
Proof.
  induction l as [|w l IH]; intros c; simpl; [lia|].
  rewrite IH, filter_cons. simpl.
  destruct (is_consistent u w t) eqn:E.
  - rewrite decide_True by (by apply is_consistent_with). simpl. lia.
  - rewrite decide_False; [done|].
    intros H. apply is_consistent_with in H. congruence.
Qed.

Lemma lcv_score_count self variable (assignment : gmap nat Z) v :
  lcv_score self variable assignment v = lcv_count self variable assignment v.
Proof.
  unfold lcv_score, lcv_count, lcv_candidates, tentative.
  generalize (seq 0 (length (domains self))) as l.
  enough (forall l c,
    fold_left (fun count neighbor_var =>
      if negb (neighbor_var =? variable)
         && bool_decide (assignment !! neighbor_var = None)
      then
        fold_left (fun count neighbor_val =>
          if is_consistent neighbor_var neighbor_val
               (<[variable := v]> assignment)
          then S count else count)
          (domains self !!! neighbor_var) count
      else count) l c
    = c + length (filter (fun p : nat * Z =>
                    consistent_with p.1 p.2 (<[variable := v]> assignment))
            (flat_map (fun u => map (pair u) (domains self !!! u))
               (filter (fun u => u <> variable /\ assignment !! u = None) l))))
    as H by (intros l; apply (H l 0)).
  induction l as [|u l IH]; intros c; simpl; [lia|].
  rewrite IH, filter_cons.
  destruct (negb (u =? variable) && bool_decide (assignment !! u = None)) eqn:E.
  - apply andb_true_iff in E as [E1 E2].
    apply negb_true_iff, Nat.eqb_neq in E1. apply bool_decide_eq_true in E2.
    rewrite decide_True by done. simpl.
    rewrite count_fold, filter_app, length_app. lia.
  - rewrite decide_False; [done|]. intros [E1 E2].
    apply andb_false_iff in E as [E|E].
    + apply negb_false_iff, Nat.eqb_eq in E. done.
    + by apply bool_decide_eq_false in E.
Qed.

Lemma order_domain_values_inv variable (assignment : gmap nat Z) self l self' :
  order_domain_values variable assignment self = Ret (l, self') ->
  self' = self
  /\ exists D, domains self !! variable = Some D
               /\ l = sorted_desc (lcv_score self variable assignment) D.
Proof.
  unfold order_domain_values. intros H.
  apply bind_Ret_inv in H as (D & s1 & HD & H).
  apply get_domain_inv in HD as [HD ->].
  unfold bind, gets, ret in H. simpl in H. injection H as <- <-.
  split; [done|]. by exists D.
Qed.

Lemma order_domain_values_Some variable (assignment : gmap nat Z) self D :
  domains self !! variable = Some D ->
  order_domain_values variable assignment self
  = Ret (sorted_desc (lcv_score self variable assignment) D, self).
Proof.
  intros HD. unfold order_domain_values.
  by rewrite (bind_Ret _ _ _ _ _ (get_domain_Some _ _ _ HD)).
Qed.

(** ** Backtracking *)

Section try_values_facts.
(** The value loop, for a recursive call [rec] that already meets the
    postcondition on every assignment, and a selected [variable] that
    the entry assignment [a] leaves unassigned. *)
Variable rec : gmap nat Z -> M (option (gmap nat Z) * gmap nat Z).
Variable self : NQueensCSP.
Variable variable : nat.
Hypothesis rec_post : forall a, backtrack_post self a (rec a self).
Hypothesis variable_lt : variable < length (domains self).

Lemma try_values_post values :
  forall a : gmap nat Z,
    a !! variable = None ->
    backtrack_post self a (try_values rec variable values a self).
Proof.
  induction values as [|value values IH]; intros a Ha; simpl; [done|].
  destruct (is_consistent variable value a) eqn:Hc; [|by apply IH].
  unfold bind. pose proof (rec_post (<[variable := value]> a)) as Hrec.
  destruct (rec _ self) as [[[r s] s1]| |]; try done.
  simpl in Hrec. destruct Hrec as [-> Hr]. destruct r as [x|].
  - destruct Hr as (-> & Hsub & Hsz & Hna & Hk). simpl.
    split; [done|]. split; [done|].
    split; [etrans; [by apply insert_subseteq|done]|].
    split; [done|]. split.
    + intros Hentry. apply Hna. by apply non_attacking_insert.
    + intros Hentry. apply Hk. intros k Hk'.
      apply lookup_insert_is_Some in Hk' as [<-|[_ Hk']]; auto.
  - subst s. rewrite lookup_insert_eq, delete_insert_eq, delete_id by done.
    by apply IH.
Qed.

Lemma try_values_returns (a : gmap nat Z) values :
  a !! variable = None ->
  (forall value, exists res, rec (<[variable := value]> a) self = Ret res) ->
  exists res, try_values rec variable values a self = Ret res.
Proof.
  intros Ha Hret. induction values as [|value values IH]; simpl.
  - by eexists.
  - destruct (is_consistent variable value a); [|done].
    destruct (Hret value) as [[[r s] s1] Hres].
    pose proof (rec_post (<[variable := value]> a)) as Hpost.
    rewrite Hres in Hpost.
    destruct Hpost as [-> Hr]. unfold bind. rewrite Hres.
    destruct r as [x|]; [by eexists|].
    subst s. by rewrite lookup_insert_eq, delete_insert_eq, delete_id.
Qed.
End try_values_facts.

Lemma backtrack_post_holds fuel :
  forall a self, backtrack_post self a (_backtrack fuel a self).
Proof.
  induction fuel as [|fuel IH]; intros a self; simpl; [done|].
  unfold bind at 1, gets at 1.
  destruct (size a =? length (domains self)) eqn:E.
  - apply Nat.eqb_eq in E. simpl. done.
  - unfold bind at 1.
    destruct (select_unassigned_variable a self) as [[variable s1]| |] eqn:Hsel;
      try done.
    apply select_unassigned_variable_inv in Hsel as (-> & Hvar & _).
    apply elem_of_unassigned_vars in Hvar as [Hlt Hnone].
    unfold bind at 1.
    destruct (order_domain_values variable a self) as [[values s1]| |] eqn:Hord;
      try done.
    apply order_domain_values_inv in Hord as (-> & _).
    by apply try_values_post.
Qed.

(** Every column of the board is unassigned, or the board is full. *)
Lemma full_or_unassigned self (a : gmap nat Z) :
  keys_in_range (length (domains self)) a ->
  size a <> length (domains self) ->
  exists u, u ∈ unassigned_vars self a.
Proof.
  intros Hk Hsz.
  destruct (unassigned_vars self a) as [|u l] eqn:E; [|exists u; by left].
  exfalso. apply Hsz.
  assert (Hdom : dom a = (set_seq 0 (length (domains self)) : gset nat)).
  { apply set_eq. intros k. rewrite elem_of_dom, elem_of_set_seq. split.
    - intros H. apply Hk in H. lia.
    - intros [_ H]. destruct (a !! k) eqn:Hak; [done|].
      assert (k ∈ unassigned_vars self a)
        by (apply elem_of_unassigned_vars; split; [lia|done]).
      rewrite E in H0. by apply elem_of_nil in H0. }
  by rewrite <- size_dom, Hdom, size_set_seq.
Qed.

Lemma unassigned_insert_length self (a : gmap nat Z) variable value :
  variable ∈ unassigned_vars self a ->
  length (unassigned_vars self (<[variable := value]> a))
  < length (unassigned_vars self a).
Proof.
  intros Hvar. unfold unassigned_vars in *.
  rewrite (list_filter_iff _
             (fun var => <[variable := value]> a !! var = None
                         /\ a !! var = None)).
  2:{ intros k. rewrite lookup_insert_None. tauto. }
  rewrite <- list_filter_filter.
  apply (length_filter_lt _ _ variable); [done|].
  by rewrite lookup_insert_eq.
Qed.

(** [_backtrack] returns: the recursion is no deeper than the number of
    unassigned columns, and neither [min] nor a subscript fails. *)
Lemma backtrack_returns fuel :
  forall a self,
    keys_in_range (length (domains self)) a ->
    length (unassigned_vars self a) < fuel ->
    exists res, _backtrack fuel a self = Ret res.
Proof.
  induction fuel as [|fuel IH]; intros a self Hk Hfuel; [lia|]. simpl.
  unfold bind at 1, gets at 1.
  destruct (size a =? length (domains self)) eqn:E; [by eexists|].
  apply Nat.eqb_neq in E.
  destruct (full_or_unassigned self a Hk E) as [u Hu].
  destruct (select_unassigned_variable_Some a self u Hu) as [variable Hsel].
  rewrite (bind_Ret _ _ _ _ _ Hsel).
  apply select_unassigned_variable_inv in Hsel as (_ & Hvar & _).
  pose proof Hvar as Hvar'.
  apply elem_of_unassigned_vars in Hvar' as [Hlt Hnone].
  destruct (lookup_lt_is_Some_2 _ _ Hlt) as [D HD].
  rewrite (bind_Ret _ _ _ _ _ (order_domain_values_Some _ a _ _ HD)).
  apply try_values_returns;
    [intros a'; apply backtrack_post_holds|done|].
  intros value. apply IH.
  - intros k Hk'. apply lookup_insert_is_Some in Hk' as [<-|[_ Hk']]; auto.
  - pose proof (unassigned_insert_length self a variable value Hvar). lia.
Qed.

Lemma length_unassigned_vars self (a : gmap nat Z) :
  length (unassigned_vars self a) <= length (domains self).
Proof.
  unfold unassigned_vars.
  etrans; [apply length_filter|]. by rewrite length_seq.
Qed.

(** A full assignment with keys in range gives every column a row. *)
Lemma full_assignment_total n (x : gmap nat Z) :
  keys_in_range n x -> size x = n -> forall k, k < n -> is_Some (x !! k).
Proof.
  intros Hk Hsz k Hlt.
  assert (Hdom : dom x = (set_seq 0 n : gset nat)).
  { apply set_subseteq_size_eq.
    - intros i Hi. apply elem_of_dom, Hk in Hi. apply elem_of_set_seq. lia.
    - rewrite size_set_seq, size_dom. lia. }
  apply elem_of_dom. rewrite Hdom. apply elem_of_set_seq. lia.
Qed.

Lemma backtracking_search_inv self r self' :
  backtracking_search self = Ret (r, self') ->
  exists s, _backtrack (S (length (domains self))) ∅ self = Ret ((r, s), self').
Proof.
  unfold backtracking_search. intros H.
  unfold bind at 1, gets at 1 in H.
  apply bind_Ret_inv in H as ([r0 s] & s1 & Hb & H).
  unfold ret in H. injection H as <- <-. by exists s.
Qed.

Lemma backtracking_search_returns self :
  exists r, backtracking_search self = Ret (r, self).
Proof.
  destruct (backtrack_returns (S (length (domains self))) ∅ self)
    as [[[r s] s1] H].
  - intros k [v Hv]. by rewrite lookup_empty in Hv.
  - pose proof (length_unassigned_vars self ∅). lia.
  - pose proof (backtrack_post_holds (S (length (domains self))) ∅ self) as Hp.
    rewrite H in Hp. destruct Hp as [-> _].
    exists r. unfold backtracking_search.
    unfold bind at 1, gets at 1. by rewrite (bind_Ret _ _ _ _ _ H).
Qed.

(** ** The state after [read_input] *)

Lemma elem_of_all_arcs n i j : (i, j) ∈ all_arcs n <-> i < n /\ j < n /\ i <> j.
Proof.
  unfold all_arcs. rewrite list_elem_of_In, in_flat_map. split.
  - intros (x & Hx & H). apply in_flat_map in H as (y & Hy & H).
    apply in_seq in Hx, Hy.
    destruct (negb (x =? y)) eqn:E; simpl in H; [|done].
    destruct H as [[= <- <-]|[]].
    apply negb_true_iff, Nat.eqb_neq in E. lia.
  - intros (Hi & Hj & Hij). exists i. split; [apply in_seq; lia|].
    apply in_flat_map. exists j. split; [apply in_seq; lia|].
    apply Nat.eqb_neq in Hij. rewrite Hij. by left.
Qed.

Lemma elem_of_requeue i j cs p :
  p ∈ requeue i j cs <-> exists k x, (k, x) ∈ cs /\ k <> j /\ p = (k, i).
Proof.
  unfold requeue. rewrite list_elem_of_In, in_flat_map. split.
  - intros ([k x] & Hin & H).
    destruct (negb (k =? j)) eqn:E; simpl in H; [|done].
    destruct H as [<-|[]]. apply negb_true_iff, Nat.eqb_neq in E.
    exists k, x. by rewrite list_elem_of_In.
  - intros (k & x & Hin & Hk & ->). exists (k, x).
    split; [by apply list_elem_of_In|].
    apply Nat.eqb_neq in Hk. rewrite Hk. by left.
Qed.

Lemma length_initial n : length (domains (initial n)) = n.
Proof. simpl. by rewrite length_fmap, length_seq. Qed.

Lemma lookup_initial n i : i < n -> domains (initial n) !! i = Some (range n).
Proof.
  intros Hi. simpl. by rewrite list_lookup_fmap, lookup_seq_lt.
Qed.

Lemma elem_of_range n (v : Z) : v ∈ range n <-> (0 <= v < Z.of_nat n)%Z.
Proof.
  unfold range. rewrite list_elem_of_fmap. split.
  - intros (k & -> & Hk). apply elem_of_seq in Hk. lia.
  - intros Hv. exists (Z.to_nat v). rewrite elem_of_seq. lia.
Qed.

Lemma NoDup_range n : NoDup (range n).
Proof. unfold range. apply NoDup_fmap_2; [apply _|apply NoDup_seq]. Qed.

(** On the freshly built domains every arc is consistent for [revise]:
    all domains are equal. *)
Lemma initial_arcs_stable n :
  Forall (fun arc => revise arc.1 arc.2 (initial n) = Ret (false, initial n))
         (all_arcs n).
Proof.
  apply Forall_forall. intros [i j] Hin.
  apply elem_of_all_arcs in Hin as (Hi & Hj & _).
  apply (revise_stable i j (range n) (range n));
    [by apply lookup_initial..|by apply Forall_forall].
Qed.

Lemma AC3_initial n : AC3 (initial n) = Ret (true, initial n).
Proof.
  unfold AC3. apply AC3_loop_stable; [apply initial_arcs_stable|].
  unfold AC3_budget. lia.
Qed.

(** ** AC-3 reaches a fixed point *)

Lemma revise_total i j self :
  i < length (domains self) -> j < length (domains self) ->
  revise i j self =
    Ret (revised_flag (domains self !!! j) (domains self !!! i),
         mkCSP (<[i := filter (fun v => v ∈ domains self !!! j)
                               (domains self !!! i)]> (domains self))
               (constraints self)).
Proof.
  intros Hi Hj. apply revise_spec; by apply list_lookup_lookup_total_lt.
Qed.

Lemma revise_supported i j self :
  i < length (domains self) -> j < length (domains self) ->
  supported self i j -> revise i j self = Ret (false, self).
Proof.
  intros Hi Hj Hs.
  eapply revise_stable; [by apply list_lookup_lookup_total_lt..|].
  by apply Forall_forall.
Qed.

Lemma AC3_body_total i j queue self :
  i < length (domains self) -> j < length (domains self) ->
  exists r self',
    AC3_body (i, j) queue self = Ret (r, self')
    /\ revise i j self
       = Ret (revised_flag (domains self !!! j) (domains self !!! i), self')
    /\ (if revised_flag (domains self !!! j) (domains self !!! i) then
          match domains self' !!! i with
          | [] => r = inl false
          | _ :: _ => r = inr (queue ++ requeue i j (constraints self))
          end
        else r = inr queue).
Proof.
  intros Hi Hj. pose proof (revise_total i j self Hi Hj) as Hrev.
  unfold AC3_body. rewrite (bind_Ret _ _ _ _ _ Hrev).
  destruct (revised_flag _ _).
  - unfold bind, get_domain, gets, ret. simpl.
    rewrite list_lookup_insert_eq by done.
    destruct (filter _ _) eqn:Hf;
      (eexists _, _; split; [reflexivity|]; split; [exact Hrev|]);
      simpl; by rewrite list_lookup_total_insert_eq.
  - by eexists _, _.
Qed.

(** With well-formed constraints [AC3] raises nothing and returns. *)
Lemma AC3_loop_returns fuel :
  forall queue self,
    well_formed self ->
    (forall i j, (i, j) ∈ queue ->
                 i < length (domains self) /\ j < length (domains self)) ->
    length queue + total_size self * S (length (constraints self)) <= fuel ->
    exists b self', AC3_loop fuel queue self = Ret (b, self').
Proof.
  induction fuel as [|fuel IH]; intros [|[i j] queue] self Hwf Hq Hfuel;
    simpl in *; try (by eexists _, _); try lia.
  destruct (Hq i j) as [Hi Hj]; [by left|].
  destruct (AC3_body_total i j queue self Hi Hj) as (r & s1 & Hbody & Hrev & Hr).
  rewrite (bind_Ret _ _ _ _ _ Hbody).
  apply revise_shrinks in Hrev as (Hc & Hs & Hsz).
  pose proof (Forall2_length _ _ _ Hs) as Hlen.
  assert (Hwf1 : well_formed s1).
  { intros a b Hab. rewrite Hc in Hab. rewrite Hlen. by apply Hwf. }
  destruct (revised_flag _ _).
  - destruct (domains s1 !!! i); subst r; [by eexists _, _|].
    apply IH; [done| |].
    + intros a b Hab. rewrite Hlen. apply elem_of_app in Hab as [Hab|Hab].
      * apply Hq. by right.
      * apply elem_of_requeue in Hab as (k & x & Hin & _ & [= -> ->]).
        split; [|done]. by apply Hwf in Hin as [? _].
    + rewrite length_app, Hc.
      pose proof (length_requeue i j (constraints self)). nia.
  - subst r s1. apply IH; [done| |lia].
    intros a b Hab. apply Hq. by right.
Qed.

Lemma AC3_returns self :
  well_formed self -> exists b self', AC3 self = Ret (b, self').
Proof.
  intros Hwf. apply AC3_loop_returns; [done| |unfold AC3_budget; lia].
  intros i j Hin. apply Hwf in Hin. tauto.
Qed.

(** Every constraint that is not waiting in the queue is supported; when
    the loop returns [True] the queue is empty. *)
Lemma AC3_loop_fixpoint fuel :
  forall queue self self',
    well_formed self ->
    (forall i j, (i, j) ∈ queue ->
                 i < length (domains self) /\ j < length (domains self)) ->
    (forall i j, (i, j) ∈ constraints self ->
                 (i, j) ∈ queue \/ supported self i j) ->
    AC3_loop fuel queue self = Ret (true, self') ->
    forall i j, (i, j) ∈ constraints self -> supported self' i j.
Proof.
  induction fuel as [|fuel IH]; intros [|[i j] queue] self self' Hwf Hq Hinv H;
    simpl in H; try discriminate.
  - injection H as <-. intros a b Hab.
    destruct (Hinv a b Hab) as [Hin|]; [by apply elem_of_nil in Hin|done].
  - injection H as <-. intros a b Hab.
    destruct (Hinv a b Hab) as [Hin|]; [by apply elem_of_nil in Hin|done].
  - destruct (Hq i j) as [Hi Hj]; [by left|].
    destruct (AC3_body_total i j queue self Hi Hj)
      as (r & s1 & Hbody & Hrev & Hr).
    rewrite (bind_Ret _ _ _ _ _ Hbody) in H.
    pose proof (revise_total i j self Hi Hj) as Hs1.
    rewrite Hrev in Hs1. injection Hs1 as Hs1.
    pose proof Hrev as Hshr.
    apply revise_shrinks in Hshr as (Hc & Hs & Hsz).
    pose proof (Forall2_length _ _ _ Hs) as Hlen.
    assert (Hwf1 : well_formed s1).
    { intros a b Hab. rewrite Hc in Hab. rewrite Hlen. by apply Hwf. }
    rewrite <- Hc. unfold revised_flag in Hr, Hsz.
    case_bool_decide as HF; simpl in Hr, Hsz.
    + (* nothing removed *)
      subst r. simpl in H. rewrite Hsz in H. rewrite Hc.
      apply (IH queue self self' Hwf); [|clear IH H|done].
      { intros a b Hab. apply Hq. by right. }
      intros a b Hab. destruct (Hinv a b Hab) as [Hin|Hsup]; [|by right].
      apply elem_of_cons in Hin as [[= -> ->]|Hin]; [|by left].
      right. intros v Hv. by eapply Forall_forall in HF.
    + (* some value removed *)
      assert (Hlook : forall a,
        domains s1 !!! a
        = if decide (a = i)
          then filter (fun v => v ∈ domains self !!! j) (domains self !!! i)
          else domains self !!! a).
      { intros a. rewrite Hs1. simpl. case_decide as Ha.
        - subst a. by rewrite list_lookup_total_insert_eq.
        - by rewrite list_lookup_total_insert_ne. }
      destruct (domains s1 !!! i) eqn:Hnew; subst r; [discriminate|].
      simpl in H. refine (IH _ s1 self' Hwf1 _ _ H).
      { intros a b Hab. rewrite Hlen. apply elem_of_app in Hab as [Hab|Hab].
        - apply Hq. by right.
        - apply elem_of_requeue in Hab as (k & x & Hin & _ & [= -> ->]).
          split; [|done]. by apply Hwf in Hin as [? _]. }
      intros a b Hab. rewrite Hc in Hab.
      destruct (Hwf a b Hab) as (Ha & Hb & Hne).
      destruct (decide (b = i)) as [->|Hbi].
      * (* an arc into the revised variable *)
        destruct (decide (a = j)) as [->|Haj].
        -- destruct (Hinv j i Hab) as [Hin|Hsup].
           ++ apply elem_of_cons in Hin as [Heq|Hin].
              { injection Heq as -> _. done. }
              left. apply elem_of_app. by left.
           ++ right. intros v Hv. rewrite Hlook in Hv. rewrite Hlook.
              rewrite decide_False in Hv by done. rewrite decide_True by done.
              apply list_elem_of_filter. split; [done|by apply Hsup].
        -- left. apply elem_of_app. right. apply elem_of_requeue.
           by exists a, i.
      * destruct (Hinv a b Hab) as [Hin|Hsup].
        -- apply elem_of_cons in Hin as [Heq|Hin].
           ++ injection Heq as -> ->.
              right. intros v Hv. rewrite Hlook in Hv. rewrite Hlook.
              rewrite decide_True in Hv by done.
              rewrite decide_False by done.
              by apply list_elem_of_filter in Hv as [Hv _].
           ++ left. apply elem_of_app. by left.
        -- right. intros v Hv. rewrite Hlook in Hv. rewrite Hlook.
           rewrite (decide_False (P := b = i)) by done.
           apply Hsup. case_decide as Hai; [|done].
           subst a. by apply list_elem_of_filter in Hv as [_ Hv].
Qed.

(** A run of [AC3] that returns [True] leaves domains on which a further
    run returns [True] again and removes nothing. *)
Lemma AC3_fixpoint self self' :
  well_formed self ->
  AC3 self = Ret (true, self') ->
  AC3 self' = Ret (true, self').
Proof.
  intros Hwf H.
  pose proof (AC3_loop_shrinks _ _ _ _ _ H) as [Hc Hs].
  pose proof (Forall2_length _ _ _ Hs) as Hlen.
  assert (Hsup : forall i j, (i, j) ∈ constraints self -> supported self' i j).
  { eapply AC3_loop_fixpoint; [exact Hwf| | |exact H].
    - intros i j Hin. apply Hwf in Hin. tauto.
    - intros i j Hin. by left. }
  unfold AC3. apply AC3_loop_stable; [|unfold AC3_budget; lia].
  apply Forall_forall. intros [i j] Hin. simpl. rewrite Hc in Hin.
  destruct (Hwf i j Hin) as (Hi & Hj & _).
  apply revise_supported; [lia..|by apply Hsup].
Qed.

Lemma initial_well_formed n : well_formed (initial n).
Proof.
  intros i j Hin. rewrite length_initial. simpl in Hin.
  by apply elem_of_all_arcs.
Qed.

(** * The claims *)

(** C1 (the claim fails on the code).  [revise] should drop a value [v] of
    [Xi] exactly when no value of [Xj] is compatible with it under the full
    non-attack predicate.  On the two domains of a size-2 board the value 0
    of [X0] has no compatible partner in [X1]'s domain, yet [revise(0, 1)]
    reports no revision and leaves it in place; and with domains [[0]] and
    [[2]] the value 0 of [X0] is compatible with the value 2 of [X1], yet
    [revise(0, 1)] removes it.  The code keeps a value exactly when an equal
    value occurs in the other domain ([revise_spec]). *)
Theorem revise_tests_equality_only :
  read_input [0; 0]%Z __init__ = Ret ([0; 0]%Z, initial 2)
  /\ domains (initial 2) = [[0; 1]; [0; 1]]%Z
  /\ (forall w, w ∈ [0; 1]%Z -> ~ compatible 0 0 1 w)
  /\ revise 0 1 (initial 2) = Ret (false, initial 2)
  /\ compatible 0 0 1 2
  /\ revise 0 1 (mkCSP [[0]; [2]; [0; 1; 2]]%Z (all_arcs 3))
     = Ret (true, mkCSP [[]; [2]; [0; 1; 2]]%Z (all_arcs 3)).
Proof.
  split; [done|]. split; [done|]. split.
  { intros w Hw [Hne Hd].
    apply elem_of_cons in Hw as [->|Hw]; [done|].
    apply list_elem_of_singleton in Hw as ->. by apply Hd. }
  split; [by vm_compute|]. split; [by unfold compatible|by vm_compute].
Qed.

(** C3.  When [AC3] returns [False] the driver prints "No solution found."
    and nothing else, whatever the search phase would do: the outcome does
    not depend on [search], which is therefore not called, and no
    assignment is printed. *)
Theorem infeasible_skips_search
    (search : M (option (gmap nat Z))) (queen_cols : list Z) self self' :
  AC3 self = Ret (false, self') ->
  solve_with search queen_cols self
  = Ret ([PrintStr "No solution found."], self').
Proof.
  intros H. unfold solve_with. by rewrite (bind_Ret _ _ _ _ _ H).
Qed.

Lemma infeasible_skips_search_witness :
  AC3 (mkCSP [[0]; [1]]%Z (all_arcs 2))
  = Ret (false, mkCSP [[]; [1]]%Z (all_arcs 2))
  /\ solve_with (fun _ => OutOfFuel) [0; 0]%Z (mkCSP [[0]; [1]]%Z (all_arcs 2))
     = Ret ([PrintStr "No solution found."], mkCSP [[]; [1]]%Z (all_arcs 2)).
Proof.
  split; [vm_compute; reflexivity|].
  apply (infeasible_skips_search (fun _ => OutOfFuel) [0; 0]%Z
           (mkCSP [[0]; [1]]%Z (all_arcs 2))).
  vm_compute. reflexivity.
Defined.

(** C7.  In the AC-3 loop, when revising [Xi] against [Xj] removes a value
    and leaves [Xi]'s domain non-empty, the loop goes on with the rest of
    the queue followed by newly appended arcs, and the appended arcs are
    exactly the pairs [(k, i)] for the variables [k <> j]. *)
Theorem AC3_requeues n self self' i j queue :
  length (domains self) = n ->
  constraints self = all_arcs n ->
  revise i j self = Ret (true, self') ->
  domains self' !! i <> Some [] ->
  exists added,
    AC3_body (i, j) queue self = Ret (inr (queue ++ added), self')
    /\ forall p, p ∈ added <-> exists k, k < n /\ k <> j /\ p = (k, i).
Proof.
  intros Hn Hcs Hrev Hne.
  pose proof Hrev as Hinv.
  apply revise_Ret_inv in Hinv as (Di & Dj & Hi & Hj & Hflag & ->).
  unfold revised_flag in Hflag. symmetry in Hflag.
  apply negb_true_iff, bool_decide_eq_false in Hflag.
  assert (Hlti : i < n) by (subst n; by eapply lookup_lt_Some).
  destruct Hj as [->|Hj]; [by destruct Hflag|].
  assert (Hltj : j < n) by (subst n; by eapply lookup_lt_Some).
  assert (Hij : i <> j).
  { intros ->. apply Hflag. assert (Dj = Di) by congruence. subst.
    by apply Forall_forall. }
  simpl in Hne. rewrite list_lookup_insert_eq in Hne by lia.
  exists (requeue i j (all_arcs n)). split.
  - unfold AC3_body. rewrite (bind_Ret _ _ _ _ _ Hrev).
    unfold bind, get_domain, gets, ret. simpl.
    rewrite list_lookup_insert_eq by lia.
    destruct (filter _ Di); [done|]. by rewrite Hcs.
  - intros p. rewrite elem_of_requeue. split.
    + intros (k & x & Hin & Hk & ->).
      apply elem_of_all_arcs in Hin as (Hkn & _). by exists k.
    + intros (k & Hkn & Hk & ->).
      exists k, (if k =? 0 then 1 else 0). split; [|done].
      apply elem_of_all_arcs. destruct (k =? 0) eqn:E.
      * apply Nat.eqb_eq in E. lia.
      * apply Nat.eqb_neq in E. lia.
Qed.

Lemma AC3_requeues_witness :
  revise 0 1 (mkCSP [[0; 1]; [0]]%Z (all_arcs 2))
  = Ret (true, mkCSP [[0]; [0]]%Z (all_arcs 2))
  /\ exists added,
       AC3_body (0, 1) [(1, 0)] (mkCSP [[0; 1]; [0]]%Z (all_arcs 2))
       = Ret (inr ([(1, 0)] ++ added), mkCSP [[0]; [0]]%Z (all_arcs 2))
       /\ forall p, p ∈ added <-> exists k, k < 2 /\ k <> 1 /\ p = (k, 0).
Proof.
  split; [vm_compute; reflexivity|].
  apply (AC3_requeues 2 (mkCSP [[0; 1]; [0]]%Z (all_arcs 2))).
  - reflexivity.
  - reflexivity.
  - vm_compute. reflexivity.
  - simpl. discriminate.
Defined.

(** The appended arcs come once per constraint that starts at [k], so on a
    board of size 3 each of them, the arc [(i, i)] included, is appended
    twice. *)
Example requeue_size_3 :
  requeue 0 1 (all_arcs 3) = [(0, 0); (0, 0); (2, 0); (2, 0)].
Proof. reflexivity. Qed.

(** C8.  AC-3 is idempotent: for a board of any size, the first run of
    [AC3] completes, and a second run on the domains it left returns the
    same boolean and leaves those domains as they are. *)
Theorem AC3_idempotent (queen_cols : list Z) (self0 : NQueensCSP) :
  exists self1 b self2,
    read_input queen_cols self0 = Ret (queen_cols, self1)
    /\ AC3 self1 = Ret (b, self2)
    /\ AC3 self2 = Ret (b, self2).
Proof.
  exists (initial (length queen_cols)), true, (initial (length queen_cols)).
  split; [done|]. split; apply AC3_initial.
Qed.

(** ** Solutions *)

Lemma backtracking_search_valid self a self' :
  backtracking_search self = Ret (Some a, self') ->
  self' = self /\ valid_solution (length (domains self)) a.
Proof.
  intros H. apply backtracking_search_inv in H as [s H].
  pose proof (backtrack_post_holds (S (length (domains self))) ∅ self) as Hp.
  rewrite H in Hp. destruct Hp as (-> & -> & _ & Hsz & Hna & Hk).
  split; [done|]. split.
  - apply full_assignment_total; [|done].
    apply Hk. intros k [v Hv]. by rewrite lookup_empty in Hv.
  - intros i j ri rj Hi Hj Hij.
    by apply (Hna non_attacking_empty i j ri rj).
Qed.

Lemma AC3_length self b self' :
  AC3 self = Ret (b, self') -> length (domains self') = length (domains self).
Proof.
  intros H. apply AC3_loop_shrinks in H as [_ H]. by eapply Forall2_length.
Qed.

(** C2.  For a board of size [n >= 1]: when, after [read_input] and a
    successful [AC3], [backtracking_search] returns an assignment, it gives
    every column a row, and any two distinct columns [i], [j] have rows
    with [row_i <> row_j] and [|row_i - row_j| <> |i - j|]. *)
Theorem solution_is_valid (queen_cols : list Z) self0 self1 self2 self3 a :
  1 <= length queen_cols ->
  read_input queen_cols self0 = Ret (queen_cols, self1) ->
  AC3 self1 = Ret (true, self2) ->
  backtracking_search self2 = Ret (Some a, self3) ->
  valid_solution (length queen_cols) a.
Proof.
  intros _ Hread HAC3 Hsearch.
  injection Hread as <-.
  apply AC3_length in HAC3. rewrite length_initial in HAC3.
  apply backtracking_search_valid in Hsearch as [_ Hvalid].
  by rewrite HAC3 in Hvalid.
Qed.

Lemma solution_is_valid_witness :
  1 <= length [0; 0; 0; 0]%Z
  /\ read_input [0; 0; 0; 0]%Z __init__ = Ret ([0; 0; 0; 0]%Z, initial 4)
  /\ AC3 (initial 4) = Ret (true, initial 4)
  /\ backtracking_search (initial 4) = Ret (Some solution_4, initial 4)
  /\ valid_solution (length [0; 0; 0; 0]%Z) solution_4.
Proof.
  assert (H1 : 1 <= length [0; 0; 0; 0]%Z) by (simpl; lia).
  assert (H2 : read_input [0; 0; 0; 0]%Z __init__
               = Ret ([0; 0; 0; 0]%Z, initial 4)) by reflexivity.
  assert (H3 : AC3 (initial 4) = Ret (true, initial 4))
    by (vm_compute; reflexivity).
  assert (H4 : backtracking_search (initial 4)
               = Ret (Some solution_4, initial 4))
    by (vm_compute; reflexivity).
  repeat (split; [assumption|]).
  exact (solution_is_valid [0; 0; 0; 0]%Z __init__ (initial 4) (initial 4)
           (initial 4) solution_4 H1 H2 H3 H4).
Defined.

(** C4.  Whatever the lines of the input file hold, a file of 1, 4 or 8
    lines makes [solve_nqueens] print a solution that is a valid
    non-attacking placement, and a file of 2 or 3 lines makes it print
    "No solution found". *)
Theorem known_sizes (self0 : NQueensCSP) :
  (forall q1,
     outs (solve_nqueens [q1] self0) = Ret (solution_report 1 solution_1))
  /\ valid_solution 1 solution_1
  /\ (forall q1 q2 q3 q4,
        outs (solve_nqueens [q1; q2; q3; q4] self0)
        = Ret (solution_report 4 solution_4))
  /\ valid_solution 4 solution_4
  /\ (forall q1 q2 q3 q4 q5 q6 q7 q8,
        outs (solve_nqueens [q1; q2; q3; q4; q5; q6; q7; q8] self0)
        = Ret (solution_report 8 solution_8))
  /\ valid_solution 8 solution_8
  /\ (forall q1 q2,
        outs (solve_nqueens [q1; q2] self0)
        = Ret [PrintStr "No solution found"])
  /\ (forall q1 q2 q3,
        outs (solve_nqueens [q1; q2; q3] self0)
        = Ret [PrintStr "No solution found"]).
Proof.
  assert (Hvalid : forall n a,
    backtracking_search (initial n) = Ret (Some a, initial n) ->
    valid_solution n a).
  { intros n a H. apply backtracking_search_valid in H as [_ H].
    by rewrite length_initial in H. }
  split; [intros; vm_compute; reflexivity|].
  split; [apply Hvalid; vm_compute; reflexivity|].
  split; [intros; vm_compute; reflexivity|].
  split; [apply Hvalid; vm_compute; reflexivity|].
  split; [intros; vm_compute; reflexivity|].
  split; [apply Hvalid; vm_compute; reflexivity|].
  split; intros; vm_compute; reflexivity.
Qed.

(** C5.  While some variable is unassigned, [select_unassigned_variable]
    returns an unassigned variable [v] such that every unassigned [u] has
    a larger domain than [v], or one of the same size and [u <= v]: it
    minimises [(domainSize, -index)]. *)
Theorem select_unassigned_variable_mrv self (assignment : gmap nat Z) :
  (exists u, u < length (domains self) /\ assignment !! u = None) ->
  exists v,
    select_unassigned_variable assignment self = Ret (v, self)
    /\ v < length (domains self)
    /\ assignment !! v = None
    /\ forall u,
         u < length (domains self) -> assignment !! u = None ->
         length (domains self !!! v) < length (domains self !!! u)
         \/ (length (domains self !!! v) = length (domains self !!! u)
             /\ u <= v).
Proof.
  intros (u0 & Hu0).
  apply elem_of_unassigned_vars in Hu0.
  destruct (select_unassigned_variable_Some assignment self u0 Hu0)
    as [v Hsel].
  exists v. split; [done|].
  apply select_unassigned_variable_inv in Hsel as (_ & Hv & Hmin).
  apply elem_of_unassigned_vars in Hv as [Hlt Hnone].
  split; [done|]. split; [done|].
  intros u Hu Hnu.
  assert (Hin : u ∈ unassigned_vars self assignment)
    by (by apply elem_of_unassigned_vars).
  specialize (Hmin u Hin). unfold key_le, mrv_key in Hmin. simpl in Hmin. lia.
Qed.

Lemma select_unassigned_variable_mrv_witness :
  (exists u, u < length (domains (initial 4))
             /\ (<[3 := 1%Z]> ∅ : gmap nat Z) !! u = None)
  /\ exists v,
       select_unassigned_variable (<[3 := 1%Z]> ∅) (initial 4)
       = Ret (v, initial 4)
       /\ v < length (domains (initial 4))
       /\ (<[3 := 1%Z]> ∅ : gmap nat Z) !! v = None
       /\ forall u,
            u < length (domains (initial 4)) ->
            (<[3 := 1%Z]> ∅ : gmap nat Z) !! u = None ->
            length (domains (initial 4) !!! v)
            < length (domains (initial 4) !!! u)
            \/ (length (domains (initial 4) !!! v)
                = length (domains (initial 4) !!! u) /\ u <= v).
Proof.
  assert (H : exists u, u < length (domains (initial 4))
                        /\ (<[3 := 1%Z]> ∅ : gmap nat Z) !! u = None).
  { exists 0. split; [simpl; lia|reflexivity]. }
  split; [exact H|].
  exact (select_unassigned_variable_mrv (initial 4) (<[3 := 1%Z]> ∅) H).
Defined.

(** With columns 3 and 2 taken, the tie between columns 0 and 1 goes to
    the larger index. *)
Example select_tie_break :
  outs (select_unassigned_variable (<[2 := 0%Z]> (<[3 := 1%Z]> ∅)) (initial 4))
  = Ret 1.
Proof. reflexivity. Qed.

Lemma StronglySorted_mono {A} (R1 R2 : A -> A -> Prop) l :
  (forall x y, R1 x y -> R2 x y) -> StronglySorted R1 l -> StronglySorted R2 l.
Proof.
  intros HR. induction 1 as [|x l Hs IH Hx]; constructor; [done|].
  eapply Forall_impl; [exact Hx|]. auto.
Qed.

(** C6.  [order_domain_values] returns the values of the selected
    variable's domain rearranged so that the LCV count never increases
    along the list, the count of [v] being the number of combinations
    [(u, w)], [u] unassigned and different from the selected variable, [w]
    in [u]'s domain, consistent with the assignment extended by
    [{selected: v}]. *)
Theorem order_domain_values_lcv self variable (assignment : gmap nat Z) D :
  domains self !! variable = Some D ->
  exists ordered,
    order_domain_values variable assignment self = Ret (ordered, self)
    /\ ordered ≡ₚ D
    /\ StronglySorted
         (fun x y => lcv_count self variable assignment y
                     <= lcv_count self variable assignment x)
         ordered.
Proof.
  intros HD. eexists. split; [by apply order_domain_values_Some|].
  split; [apply sorted_desc_perm|].
  eapply StronglySorted_mono; [|apply sorted_desc_sorted].
  intros x y. unfold desc. by rewrite !lcv_score_count.
Qed.

Lemma order_domain_values_lcv_witness :
  domains (initial 3) !! 1 = Some [0; 1; 2]%Z
  /\ exists ordered,
       order_domain_values 1 ∅ (initial 3) = Ret (ordered, initial 3)
       /\ ordered ≡ₚ [0; 1; 2]%Z
       /\ StronglySorted
            (fun x y => lcv_count (initial 3) 1 ∅ y
                        <= lcv_count (initial 3) 1 ∅ x)
            ordered.
Proof.
  split; [reflexivity|].
  apply (order_domain_values_lcv (initial 3) 1 ∅ [0; 1; 2]%Z).
  reflexivity.
Defined.

(** On the fresh 3-board the counts of rows 0, 1, 2 for column 1 are 2, 0,
    2: rows 0 and 2 are tried first, in their domain order, then row 1. *)
Example order_domain_values_example :
  outs (order_domain_values 1 ∅ (initial 3)) = Ret [0; 2; 1]%Z
  /\ lcv_score (initial 3) 1 ∅ <$> [0; 1; 2]%Z = [2; 0; 2].
Proof. split; reflexivity. Qed.

(** ** The domain invariant *)

Lemma initial_domain_inv n : domain_inv n (initial n).
Proof.
  split; [apply length_initial|].
  apply Forall_forall. intros D HD. simpl in HD.
  apply list_elem_of_fmap in HD as (k & -> & _). reflexivity.
Qed.

Lemma domain_inv_shrinks n self self' :
  domain_inv n self -> shrinks self' self -> domain_inv n self'.
Proof.
  intros [Hlen HF] Hs. split.
  - apply Forall2_length in Hs. congruence.
  - unfold shrinks in Hs. clear Hlen.
    induction Hs as [|D' D l' l HD Hs IH]; [constructor|].
    inversion HF; subst. constructor; [by etrans|auto].
Qed.

Lemma domain_inv_values n self D :
  domain_inv n self -> D ∈ domains self ->
  NoDup D /\ forall v, v ∈ D -> (0 <= v < Z.of_nat n)%Z.
Proof.
  intros [_ HF] HD. eapply Forall_forall in HF; [|exact HD]. split.
  - eapply sublist_NoDup; [apply NoDup_range|exact HF].
  - intros v Hv. apply elem_of_range. by eapply sublist_subseteq.
Qed.

(** C9.  The domains built for size [n] satisfy the invariant, and from
    any state that satisfies it: every domain holds distinct values of
    [0, n); [revise] and [AC3] lead to a state that satisfies it again and
    in which every domain is a subsequence of what it was; [_backtrack] and
    [backtracking_search] return with [self], hence every domain,
    unchanged. *)
Theorem domain_invariant n self :
  domain_inv n self ->
  domain_inv n (initial n)
  /\ (forall D, D ∈ domains self ->
        NoDup D /\ forall v, v ∈ D -> (0 <= v < Z.of_nat n)%Z)
  /\ (forall i j b self',
        revise i j self = Ret (b, self') ->
        domain_inv n self' /\ shrinks self' self)
  /\ (forall b self',
        AC3 self = Ret (b, self') -> domain_inv n self' /\ shrinks self' self)
  /\ (forall fuel a r self',
        _backtrack fuel a self = Ret (r, self') -> self' = self)
  /\ (forall r self',
        backtracking_search self = Ret (r, self') -> self' = self).
Proof.
  intros Hinv. split; [apply initial_domain_inv|].
  split; [intros D; by apply domain_inv_values|]. split.
  { intros i j b self' H. apply revise_shrinks in H as (_ & Hs & _).
    split; [by eapply domain_inv_shrinks|done]. }
  split.
  { intros b self' H. apply AC3_loop_shrinks in H as [_ Hs].
    split; [by eapply domain_inv_shrinks|done]. }
  split.
  { intros fuel a [r s] self' H.
    pose proof (backtrack_post_holds fuel a self) as Hp.
    rewrite H in Hp. by destruct Hp. }
  intros r self' H. apply backtracking_search_inv in H as [s H].
  pose proof (backtrack_post_holds (S (length (domains self))) ∅ self) as Hp.
  rewrite H in Hp. by destruct Hp.
Qed.

Lemma domain_invariant_witness :
  domain_inv 2 (mkCSP [[0; 1]; [1]]%Z (all_arcs 2))
  /\ (forall i j b self',
        revise i j (mkCSP [[0; 1]; [1]]%Z (all_arcs 2)) = Ret (b, self') ->
        domain_inv 2 self'
        /\ shrinks self' (mkCSP [[0; 1]; [1]]%Z (all_arcs 2))).
Proof.
  assert (H : domain_inv 2 (mkCSP [[0; 1]; [1]]%Z (all_arcs 2))).
  { split; [reflexivity|]. repeat constructor. }
  split; [exact H|].
  exact (proj1 (proj2 (proj2
           (domain_invariant 2 (mkCSP [[0; 1]; [1]]%Z (all_arcs 2)) H)))).
Defined.

(** C10.  Called on a partial assignment [a] with enough recursion budget
    for the unassigned columns, [_backtrack] returns with [self]
    untouched; when it returns [None] the dictionary holds exactly the
    entries it had at entry; when it returns a mapping, that mapping is
    the dictionary itself, contains every entry of [a], and gives a row to
    each variable and to nothing else. *)
Theorem backtrack_atomic self (a : gmap nat Z) fuel :
  keys_in_range (length (domains self)) a ->
  length (unassigned_vars self a) < fuel ->
  exists r s,
    _backtrack fuel a self = Ret ((r, s), self)
    /\ match r with
       | None => s = a
       | Some x =>
           x = s /\ a ⊆ x
           /\ forall k, is_Some (x !! k) <-> k < length (domains self)
       end.
Proof.
  intros Hk Hfuel.
  destruct (backtrack_returns fuel a self Hk Hfuel) as [[[r s] s1] H].
  pose proof (backtrack_post_holds fuel a self) as Hp.
  rewrite H in Hp. destruct Hp as [-> Hr].
  exists r, s. split; [done|]. destruct r as [x|]; [|done].
  destruct Hr as (-> & Hsub & Hsz & _ & Hkx).
  split; [done|]. split; [done|]. intros k. split; [by apply Hkx|].
  by apply full_assignment_total; [apply Hkx|].
Qed.

Lemma backtrack_atomic_witness :
  keys_in_range (length (domains (initial 3))) (<[2 := 0%Z]> ∅)
  /\ length (unassigned_vars (initial 3) (<[2 := 0%Z]> ∅)) < 4
  /\ exists r s,
       _backtrack 4 (<[2 := 0%Z]> ∅) (initial 3) = Ret ((r, s), initial 3)
       /\ match r with
          | None => s = <[2 := 0%Z]> ∅
          | Some x =>
              x = s /\ <[2 := 0%Z]> ∅ ⊆ x
              /\ forall k, is_Some (x !! k)
                           <-> k < length (domains (initial 3))
          end.
Proof.
  assert (H1 : keys_in_range (length (domains (initial 3))) (<[2 := 0%Z]> ∅)).
  { intros k Hk. apply lookup_insert_is_Some in Hk as [<-|[_ [v Hv]]].
    - simpl. lia.
    - by rewrite lookup_empty in Hv. }
  assert (H2 : length (unassigned_vars (initial 3) (<[2 := 0%Z]> ∅)) < 4).
  { vm_compute. lia. }
  split; [exact H1|]. split; [exact H2|].
  exact (backtrack_atomic (initial 3) (<[2 := 0%Z]> ∅) 4 H1 H2).
Defined.

(** On the 3-board with column 2 on row 0 the search fails, and the
    dictionary is handed back with that single entry. *)
Example backtrack_failure_restores :
  outs (_backtrack 4 (<[2 := 0%Z]> ∅) (initial 3))
  = Ret (None, <[2 := 0%Z]> ∅).
Proof. vm_compute. reflexivity. Qed.

(** * Further properties of the code *)

(** ** [revise] *)

(** X1.  With both variables present, [revise(i, j)] replaces [Xi]'s
    domain by its values that also occur in [Xj]'s domain, order and
    repetitions kept, and returns [True] exactly when some value of [Xi]'s
    domain does not occur in [Xj]'s. *)
Theorem revise_keeps_shared_values i j Di Dj self :
  domains self !! i = Some Di ->
  domains self !! j = Some Dj ->
  revise i j self
  = Ret (negb (bool_decide (Forall (fun v => v ∈ Dj) Di)),
         mkCSP (<[i := filter (fun v => v ∈ Dj) Di]> (domains self))
               (constraints self)).
Proof. apply revise_spec. Qed.

Lemma revise_keeps_shared_values_witness :
  domains (mkCSP [[0; 1; 2; 1]; [1; 3]]%Z []) !! 0 = Some [0; 1; 2; 1]%Z
  /\ domains (mkCSP [[0; 1; 2; 1]; [1; 3]]%Z []) !! 1 = Some [1; 3]%Z
  /\ revise 0 1 (mkCSP [[0; 1; 2; 1]; [1; 3]]%Z [])
     = Ret (negb (bool_decide
                    (Forall (fun v => v ∈ [1; 3]%Z) [0; 1; 2; 1]%Z)),
            mkCSP (<[0 := filter (fun v => v ∈ [1; 3]%Z) [0; 1; 2; 1]%Z]>
                     (domains (mkCSP [[0; 1; 2; 1]; [1; 3]]%Z [])))
                  (constraints (mkCSP [[0; 1; 2; 1]; [1; 3]]%Z []))).
Proof.
  split; [reflexivity|]. split; [reflexivity|].
  apply (revise_keeps_shared_values 0 1 [0; 1; 2; 1]%Z [1; 3]%Z
           (mkCSP [[0; 1; 2; 1]; [1; 3]]%Z [])); reflexivity.
Defined.

(** X2.  [revise(i, j)] raises [KeyError] when [i] is not a variable, or
    when [Xi]'s domain is non-empty and [j] is not a variable; with an
    empty domain for [Xi] it returns [False] without looking [j] up; in
    every other case it returns.  [list.remove] never fails in it. *)
Theorem revise_raises_only_KeyError i j self :
  match domains self !! i with
  | None => revise i j self = Raise KeyError
  | Some [] => revise i j self = Ret (false, self)
  | Some (_ :: _) =>
      match domains self !! j with
      | None => revise i j self = Raise KeyError
      | Some _ => exists b self', revise i j self = Ret (b, self')
      end
  end.
Proof.
  destruct (domains self !! i) as [[|v Di]|] eqn:Hi.
  - unfold revise. by rewrite (bind_Ret _ _ _ _ _ (get_domain_Some _ _ _ Hi)).
  - destruct (domains self !! j) as [Dj|] eqn:Hj.
    + rewrite (revise_spec i j _ Dj) by done. by eexists _, _.
    + unfold revise.
      rewrite (bind_Ret _ _ _ _ _ (get_domain_Some _ _ _ Hi)).
      simpl. unfold revise_body, bind, get_domain. by rewrite Hj.
  - unfold revise, bind, get_domain. by rewrite Hi.
Qed.

(** X3.  The flag [revise] returns tells whether it removed something: it
    is [True] exactly when fewer values are left in the domains, and
    [False] exactly when the object is unchanged. *)
Theorem revise_flag_reports_removal i j self b self' :
  revise i j self = Ret (b, self') ->
  (b = true <-> total_size self' < total_size self)
  /\ (b = false <-> self' = self).
Proof.
  intros H. apply revise_shrinks in H as (_ & _ & H).
  destruct b; (split; split; try done).
  - intros Heq. subst self'. lia.
  - intros Hlt. subst self'. lia.
Qed.

Lemma revise_flag_reports_removal_witness :
  revise 0 1 (mkCSP [[0; 1]; [1]]%Z [])
  = Ret (true, mkCSP [[1]; [1]]%Z [])
  /\ (true = true
      <-> total_size (mkCSP [[1]; [1]]%Z [])
          < total_size (mkCSP [[0; 1]; [1]]%Z []))
  /\ (true = false
      <-> mkCSP [[1]; [1]]%Z [] = mkCSP [[0; 1]; [1]]%Z []).
Proof.
  assert (H : revise 0 1 (mkCSP [[0; 1]; [1]]%Z [])
              = Ret (true, mkCSP [[1]; [1]]%Z []))
    by (vm_compute; reflexivity).
  split; [exact H|].
  exact (revise_flag_reports_removal 0 1 _ true _ H).
Defined.

(** X4.  Revising the same arc again right away finds nothing to
    remove. *)
Theorem revise_twice i j self b self1 :
  revise i j self = Ret (b, self1) ->
  revise i j self1 = Ret (false, self1).
Proof.
  intros H. pose proof H as Hinv.
  apply revise_Ret_inv in Hinv as (Di & Dj & Hi & Hj & -> & ->).
  assert (Hlt : i < length (domains self)) by (by eapply lookup_lt_Some).
  destruct Hj as [->|Hj].
  - rewrite filter_nil, list_insert_id by done.
    destruct self as [doms cs]. simpl in *.
    unfold revise, bind, get_domain. simpl. by rewrite Hi.
  - destruct (decide (i = j)) as [->|Hij].
    + eapply revise_stable; simpl;
        [by rewrite list_lookup_insert_eq..|by apply Forall_forall].
    + eapply (revise_stable i j _ Dj); simpl.
      * by rewrite list_lookup_insert_eq.
      * by rewrite list_lookup_insert_ne.
      * apply Forall_forall. intros v Hv.
        by apply list_elem_of_filter in Hv as [Hv _].
Qed.

Lemma revise_twice_witness :
  revise 0 1 (mkCSP [[0; 1]; [1]]%Z [])
  = Ret (true, mkCSP [[1]; [1]]%Z [])
  /\ revise 0 1 (mkCSP [[1]; [1]]%Z [])
     = Ret (false, mkCSP [[1]; [1]]%Z []).
Proof.
  assert (H : revise 0 1 (mkCSP [[0; 1]; [1]]%Z [])
              = Ret (true, mkCSP [[1]; [1]]%Z []))
    by (vm_compute; reflexivity).
  split; [exact H|].
  exact (revise_twice 0 1 _ true _ H).
Defined.

(** ** [AC3] *)

(** A call of [revise] that returns touches [Xi]'s domain only. *)
Lemma revise_Ret_cases i j self b self' :
  revise i j self = Ret (b, self') ->
  self' = self
  \/ exists Di Dj,
       domains self !! i = Some Di /\ domains self !! j = Some Dj
       /\ self' = mkCSP (<[i := filter (fun v => v ∈ Dj) Di]> (domains self))
                        (constraints self).
Proof.
  intros H. apply revise_Ret_inv in H as (Di & Dj & Hi & Hj & _ & ->).
  destruct Hj as [->|Hj].
  - left. rewrite filter_nil, list_insert_id by done. by destruct self.
  - right. by exists Di, Dj.
Qed.

Section AC3_invariant.
(** A property of the object that every returning [revise] preserves holds
    when the loop of [AC3] returns. *)
Variable Inv : NQueensCSP -> Prop.
Hypothesis revise_keeps :
  forall i j self b self', Inv self -> revise i j self = Ret (b, self') -> Inv self'.

Lemma AC3_loop_invariant fuel :
  forall queue self b self',
    Inv self -> AC3_loop fuel queue self = Ret (b, self') -> Inv self'.
Proof.
  induction fuel as [|fuel IH]; intros [|[i j] queue] self b self' HI H;
    simpl in H; try discriminate; try (by injection H as <- <-).
  apply bind_Ret_inv in H as (r & s1 & Hbody & H).
  apply AC3_body_inv in Hbody as (rv & Hrev & _).
  pose proof (revise_keeps _ _ _ _ _ HI Hrev) as HI1.
  destruct r as [b0|q]; [by injection H as <- <-|by eapply IH].
Qed.
End AC3_invariant.

Lemma AC3_loop_false fuel :
  forall queue self self',
    AC3_loop fuel queue self = Ret (false, self') ->
    exists i D,
      domains self !! i = Some D /\ D <> [] /\ domains self' !! i = Some [].
Proof.
  induction fuel as [|fuel IH]; intros [|[i j] queue] self self' H;
    simpl in H; try discriminate.
  apply bind_Ret_inv in H as (r & s1 & Hbody & H).
  apply AC3_body_inv in Hbody as (rv & Hrev & Hr).
  destruct r as [b0|q].
  - injection H as -> <-. destruct rv; [|discriminate].
    apply revise_Ret_inv in Hrev as (Di & Dj & Hi & _ & Hflag & ->).
    simpl in Hr. rewrite list_lookup_insert_eq in Hr
      by (by eapply lookup_lt_Some).
    exists i, Di. split; [done|]. split.
    + intros ->. done.
    + simpl. rewrite list_lookup_insert_eq by (by eapply lookup_lt_Some).
      by destruct (filter _ Di).
  - apply IH in H as (k & D & Hk & Hne & Hk').
    apply revise_shrinks in Hrev as (_ & Hs & _).
    destruct (Forall2_lookup_l _ _ _ _ _ Hs Hk) as (D0 & Hk0 & Hsub).
    exists k, D0. split; [done|]. split; [|done].
    intros ->. by apply sublist_nil_r in Hsub.
Qed.

Lemma AC3_loop_true fuel :
  forall queue self self',
    AC3_loop fuel queue self = Ret (true, self') ->
    forall i D, domains self !! i = Some D -> D <> [] ->
                domains self' !! i <> Some [].
Proof.
  induction fuel as [|fuel IH]; intros [|[i j] queue] self self' H;
    simpl in H; try discriminate;
    try (injection H as <-; intros k D Hk Hne; by rewrite Hk; intros [= ->]).
  apply bind_Ret_inv in H as (r & s1 & Hbody & H).
  apply AC3_body_inv in Hbody as (rv & Hrev & Hr).
  destruct r as [b0|q].
  { injection H as -> <-. destruct rv; [|discriminate].
    by destruct (domains s1 !! i) as [[|]|]. }
  intros k D Hk Hne.
  assert (Hs1 : exists D1, domains s1 !! k = Some D1 /\ D1 <> []).
  { destruct rv.
    - destruct (decide (k = i)) as [->|Hki].
      + destruct (domains s1 !! i) as [[|z y]|]; try done. by exists (z :: y).
      + apply revise_Ret_cases in Hrev as [->|(Di & Dj & _ & _ & ->)];
          [by exists D|].
        exists D. simpl. by rewrite list_lookup_insert_ne.
    - apply revise_shrinks in Hrev as (_ & _ & ->). by exists D. }
  destruct Hs1 as (D1 & Hk1 & Hne1). by eapply IH.
Qed.

(** X5.  With well-formed constraints the loop of [AC3] stops and the
    call returns a boolean: nothing is raised. *)
Theorem AC3_always_returns self :
  well_formed self -> exists b self', AC3 self = Ret (b, self').
Proof. apply AC3_returns. Qed.

Lemma AC3_always_returns_witness :
  well_formed (mkCSP [[0; 2]; [2; 1]; [2]]%Z (all_arcs 3))
  /\ exists b self',
       AC3 (mkCSP [[0; 2]; [2; 1]; [2]]%Z (all_arcs 3)) = Ret (b, self').
Proof.
  assert (H : well_formed (mkCSP [[0; 2]; [2; 1]; [2]]%Z (all_arcs 3))).
  { intros i j Hin. simpl in *. by apply elem_of_all_arcs. }
  split; [exact H|]. exact (AC3_always_returns _ H).
Defined.

(** X6.  [AC3] returns [False] exactly when it has emptied a domain that
    was not empty before the call; when it returns [True] every domain
    that had a value still has one. *)
Theorem AC3_false_iff_emptied self b self' :
  AC3 self = Ret (b, self') ->
  (b = false
   <-> exists i D,
         domains self !! i = Some D /\ D <> []
         /\ domains self' !! i = Some []).
Proof.
  intros H. destruct b.
  - split; [done|]. intros (i & D & Hi & Hne & Hi').
    by destruct (AC3_loop_true _ _ _ _ H i D Hi Hne).
  - split; [|done]. intros _. by eapply AC3_loop_false.
Qed.

Lemma AC3_false_iff_emptied_witness :
  AC3 (mkCSP [[0]; [1]]%Z (all_arcs 2))
  = Ret (false, mkCSP [[]; [1]]%Z (all_arcs 2))
  /\ (false = false
      <-> exists i D,
            domains (mkCSP [[0]; [1]]%Z (all_arcs 2)) !! i = Some D
            /\ D <> []
            /\ domains (mkCSP [[]; [1]]%Z (all_arcs 2)) !! i = Some []).
Proof.
  assert (H : AC3 (mkCSP [[0]; [1]]%Z (all_arcs 2))
              = Ret (false, mkCSP [[]; [1]]%Z (all_arcs 2)))
    by (vm_compute; reflexivity).
  split; [exact H|]. exact (AC3_false_iff_emptied _ false _ H).
Defined.

Lemma filter_ext_elem (P Q : Z -> Prop)
    `{!forall x, Decision (P x), !forall x, Decision (Q x)} (l : list Z) :
  (forall x, x ∈ l -> (P x <-> Q x)) -> filter P l = filter Q l.
Proof.
  induction l as [|x l IH]; intros Hext; [done|].
  rewrite !filter_cons.
  assert (HP : P x <-> Q x) by (apply Hext; by left).
  rewrite IH by (intros y Hy; apply Hext; by right).
  destruct (decide (P x)), (decide (Q x)); tauto || done.
Qed.

Lemma pruned_from_refl self : pruned_from self self.
Proof.
  split; [done|]. split; [|done].
  intros i Hi. symmetry. apply filter_Forall_id. by apply Forall_forall.
Qed.

Lemma pruned_from_revise self0 i j self b self' :
  pruned_from self0 self ->
  revise i j self = Ret (b, self') ->
  pruned_from self0 self'.
Proof.
  intros (Hlen & Hfil & Hcom) H.
  apply revise_Ret_cases in H as [->|(Di & Dj & Hi & Hj & ->)]; [done|].
  assert (Hlt : i < length (domains self)) by (by eapply lookup_lt_Some).
  split; [by rewrite <- Hlen; simpl; rewrite length_insert|].
  simpl. split.
  - intros k Hk. destruct (decide (k = i)) as [->|Hki].
    + rewrite list_lookup_total_insert_eq by done.
      specialize (Hfil i Hk).
      rewrite (list_lookup_total_correct _ _ _ Hi) in Hfil.
      rewrite Hfil at 1. rewrite list_filter_filter.
      apply list_filter_iff. intros v.
      rewrite list_elem_of_filter. tauto.
    + rewrite list_lookup_total_insert_ne by done. by apply Hfil.
  - intros v Hv. specialize (Hcom v Hv). unfold common_value in *. simpl.
    apply Forall_insert; [done|]. apply list_elem_of_filter. split.
    + by eapply (Forall_lookup_1 _ _ _ _ Hcom Hj).
    + by eapply (Forall_lookup_1 _ _ _ _ Hcom Hi).
Qed.

(** X7.  On the complete constraint graph, when [AC3] returns [True] it
    has cut every domain down to the values that all the domains shared
    at the start, in their order. *)
Theorem AC3_true_keeps_common_values n self self' :
  length (domains self) = n ->
  constraints self = all_arcs n ->
  AC3 self = Ret (true, self') ->
  forall i, i < n ->
    domains self' !!! i = filter (common_value self) (domains self !!! i).
Proof.
  intros Hn Hcs H i Hi.
  assert (Hwf : well_formed self).
  { intros a b Hab. rewrite Hcs in Hab. rewrite Hn.
    by apply elem_of_all_arcs. }
  assert (Hsup : forall a b, (a, b) ∈ constraints self -> supported self' a b).
  { eapply AC3_loop_fixpoint; [exact Hwf| | |exact H].
    - intros a b Hin. apply Hwf in Hin. tauto.
    - intros a b Hin. by left. }
  destruct (AC3_loop_invariant (pruned_from self)
              (pruned_from_revise self) _ _ _ _ _ (pruned_from_refl self) H)
    as (Hlen & Hfil & Hcom).
  rewrite Hn in Hfil, Hlen. rewrite (Hfil i Hi).
  apply filter_ext_elem. intros v Hv. split.
  - intros Hv'. apply Forall_lookup_2. intros k D Hk.
    assert (Hkn : k < n) by (rewrite <- Hn; by eapply lookup_lt_Some).
    rewrite <- (list_lookup_total_correct _ _ _ Hk).
    assert (Hvk : v ∈ domains self' !!! k).
    { destruct (decide (i = k)) as [->|Hik]; [done|].
      apply (Hsup i k); [|done]. rewrite Hcs. by apply elem_of_all_arcs. }
    rewrite (Hfil k Hkn) in Hvk.
    by apply list_elem_of_filter in Hvk as [_ Hvk].
  - intros Hc. apply Hcom in Hc.
    eapply (Forall_lookup_1 _ _ i _ Hc).
    apply list_lookup_lookup_total_lt. lia.
Qed.

Lemma AC3_true_keeps_common_values_witness :
  length (domains (mkCSP [[0; 2]; [2; 1]; [3; 2]]%Z (all_arcs 3))) = 3
  /\ constraints (mkCSP [[0; 2]; [2; 1]; [3; 2]]%Z (all_arcs 3)) = all_arcs 3
  /\ AC3 (mkCSP [[0; 2]; [2; 1]; [3; 2]]%Z (all_arcs 3))
     = Ret (true, mkCSP [[2]; [2]; [2]]%Z (all_arcs 3))
  /\ forall i, i < 3 ->
       domains (mkCSP [[2]; [2]; [2]]%Z (all_arcs 3)) !!! i
       = filter (common_value (mkCSP [[0; 2]; [2; 1]; [3; 2]]%Z (all_arcs 3)))
                (domains (mkCSP [[0; 2]; [2; 1]; [3; 2]]%Z (all_arcs 3)) !!! i).
Proof.
  assert (H : AC3 (mkCSP [[0; 2]; [2; 1]; [3; 2]]%Z (all_arcs 3))
              = Ret (true, mkCSP [[2]; [2]; [2]]%Z (all_arcs 3)))
    by (vm_compute; reflexivity).
  split; [reflexivity|]. split; [reflexivity|]. split; [exact H|].
  exact (AC3_true_keeps_common_values 3
           (mkCSP [[0; 2]; [2; 1]; [3; 2]]%Z (all_arcs 3))
           (mkCSP [[2]; [2]; [2]]%Z (all_arcs 3)) eq_refl eq_refl H).
Defined.

(** X8.  After [read_input], whatever the board size, [AC3] returns
    [True] and removes nothing: every domain is still [range(n)]. *)
Theorem AC3_after_read_input (queen_cols : list Z) (self0 : NQueensCSP) :
  (exec read_input queen_cols ;; AC3) self0
  = Ret (true, initial (length queen_cols))
  /\ forall i, i < length queen_cols ->
       domains (initial (length queen_cols)) !! i
       = Some (range (length queen_cols)).
Proof.
  split; [|apply lookup_initial].
  unfold bind, read_input. apply AC3_initial.
Qed.

(** X9.  From any state with well-formed constraints, a run of [AC3] that
    returns [True] leaves domains on which a second run returns [True]
    and removes nothing. *)
Theorem AC3_true_is_fixed_point self self' :
  well_formed self ->
  AC3 self = Ret (true, self') ->
  AC3 self' = Ret (true, self').
Proof. apply AC3_fixpoint. Qed.

Lemma AC3_true_is_fixed_point_witness :
  well_formed (mkCSP [[0; 2]; [2; 1]; [3; 2]]%Z (all_arcs 3))
  /\ AC3 (mkCSP [[0; 2]; [2; 1]; [3; 2]]%Z (all_arcs 3))
     = Ret (true, mkCSP [[2]; [2]; [2]]%Z (all_arcs 3))
  /\ AC3 (mkCSP [[2]; [2]; [2]]%Z (all_arcs 3))
     = Ret (true, mkCSP [[2]; [2]; [2]]%Z (all_arcs 3)).
Proof.
  assert (H1 : well_formed (mkCSP [[0; 2]; [2; 1]; [3; 2]]%Z (all_arcs 3))).
  { intros i j Hin. simpl in *. by apply elem_of_all_arcs. }
  assert (H2 : AC3 (mkCSP [[0; 2]; [2; 1]; [3; 2]]%Z (all_arcs 3))
               = Ret (true, mkCSP [[2]; [2]; [2]]%Z (all_arcs 3)))
    by (vm_compute; reflexivity).
  split; [exact H1|]. split; [exact H2|].
  exact (AC3_true_is_fixed_point _ _ H1 H2).
Defined.

(** ** [is_consistent] *)

(** X10.  [is_consistent(variable, value, assignment)] is [True] exactly
    when every assigned queen is on another row than [value] and on no
    diagonal through [(variable, value)]. *)
Theorem is_consistent_iff variable value (assignment : gmap nat Z) :
  is_consistent variable value assignment = true
  <-> forall var val,
        assignment !! var = Some val ->
        val <> value
        /\ Z.abs (val - value) <> Z.abs (Z.of_nat var - Z.of_nat variable).
Proof. apply is_consistent_spec. Qed.

(** X11.  The test is symmetric: a queen at [(i, v)] is consistent with
    one at [(j, w)] exactly when the one at [(j, w)] is consistent with
    it. *)
Theorem is_consistent_symmetric i v j w :
  is_consistent i v {[j := w]} = is_consistent j w {[i := v]}.
Proof.
  apply eq_true_iff_eq. rewrite !is_consistent_spec. split.
  - intros H var val Hl. apply lookup_singleton_Some in Hl as [<- <-].
    apply compatible_sym, H. by rewrite lookup_singleton_eq.
  - intros H var val Hl. apply lookup_singleton_Some in Hl as [<- <-].
    apply compatible_sym, H. by rewrite lookup_singleton_eq.
Qed.

(** ** [select_unassigned_variable] *)

(** X12.  When every variable is assigned, [select_unassigned_variable]
    raises [ValueError]: [min] gets an empty list. *)
Theorem select_unassigned_variable_full self (assignment : gmap nat Z) :
  (forall u, u < length (domains self) -> is_Some (assignment !! u)) ->
  select_unassigned_variable assignment self = Raise ValueError.
Proof.
  intros Hfull. unfold select_unassigned_variable.
  destruct (unassigned_vars self assignment) as [|u l] eqn:E; [done|].
  assert (Hu : u ∈ unassigned_vars self assignment) by (rewrite E; by left).
  apply elem_of_unassigned_vars in Hu as [Hlt Hnone].
  destruct (Hfull u Hlt) as [r Hr]. congruence.
Qed.

Lemma select_unassigned_variable_full_witness :
  (forall u, u < length (domains (initial 1)) ->
             is_Some ((<[0 := 0%Z]> ∅ : gmap nat Z) !! u))
  /\ select_unassigned_variable (<[0 := 0%Z]> ∅) (initial 1)
     = Raise ValueError.
Proof.
  assert (H : forall u, u < length (domains (initial 1)) ->
                        is_Some ((<[0 := 0%Z]> ∅ : gmap nat Z) !! u)).
  { intros u Hu. simpl in Hu. assert (u = 0) as -> by lia. by eexists. }
  split; [exact H|].
  exact (select_unassigned_variable_full (initial 1) (<[0 := 0%Z]> ∅) H).
Defined.

(** X13.  When all domains have the same size, as they do throughout a
    run of the program, the variable selected is the unassigned variable
    of largest index. *)
Theorem select_unassigned_variable_equal_sizes
    self (assignment : gmap nat Z) v self' :
  (forall u w, u < length (domains self) -> w < length (domains self) ->
               length (domains self !!! u) = length (domains self !!! w)) ->
  select_unassigned_variable assignment self = Ret (v, self') ->
  v < length (domains self)
  /\ assignment !! v = None
  /\ forall u, u < length (domains self) -> assignment !! u = None -> u <= v.
Proof.
  intros Heq Hsel.
  apply select_unassigned_variable_inv in Hsel as (_ & Hv & Hmin).
  apply elem_of_unassigned_vars in Hv as [Hlt Hnone].
  split; [done|]. split; [done|]. intros u Hu Hnu.
  assert (Hin : u ∈ unassigned_vars self assignment)
    by (by apply elem_of_unassigned_vars).
  specialize (Hmin u Hin). unfold key_le, mrv_key in Hmin. simpl in Hmin.
  specialize (Heq v u Hlt Hu). lia.
Qed.

Lemma select_unassigned_variable_equal_sizes_witness :
  (forall u w, u < length (domains (initial 4)) ->
               w < length (domains (initial 4)) ->
               length (domains (initial 4) !!! u)
               = length (domains (initial 4) !!! w))
  /\ select_unassigned_variable (<[3 := 1%Z]> ∅) (initial 4)
     = Ret (2, initial 4)
  /\ 2 < length (domains (initial 4))
  /\ (<[3 := 1%Z]> ∅ : gmap nat Z) !! 2 = None
  /\ forall u, u < length (domains (initial 4)) ->
               (<[3 := 1%Z]> ∅ : gmap nat Z) !! u = None -> u <= 2.
Proof.
  assert (H1 : forall u w, u < length (domains (initial 4)) ->
                           w < length (domains (initial 4)) ->
                           length (domains (initial 4) !!! u)
                           = length (domains (initial 4) !!! w)).
  { intros u w Hu Hw. rewrite length_initial in Hu, Hw.
    by rewrite (list_lookup_total_correct _ _ _ (lookup_initial 4 u Hu)),
               (list_lookup_total_correct _ _ _ (lookup_initial 4 w Hw)). }
  assert (H2 : select_unassigned_variable (<[3 := 1%Z]> ∅) (initial 4)
               = Ret (2, initial 4)) by reflexivity.
  split; [exact H1|]. split; [exact H2|].
  exact (select_unassigned_variable_equal_sizes (initial 4) (<[3 := 1%Z]> ∅)
           2 (initial 4) H1 H2).
Defined.

(** ** [order_domain_values] *)

(** X14.  Values with the same LCV score come out of
    [order_domain_values] in the order they have in the domain. *)
Theorem order_domain_values_stable
    self variable (assignment : gmap nat Z) ordered self' :
  order_domain_values variable assignment self = Ret (ordered, self') ->
  forall score,
    filter (fun v => lcv_score self variable assignment v = score) ordered
    = filter (fun v => lcv_score self variable assignment v = score)
             (domains self !!! variable).
Proof.
  intros H score.
  apply order_domain_values_inv in H as (_ & D & HD & ->).
  rewrite (list_lookup_total_correct _ _ _ HD).
  apply sorted_desc_stable.
Qed.

Lemma order_domain_values_stable_witness :
  order_domain_values 1 ∅ (initial 3) = Ret ([0; 2; 1]%Z, initial 3)
  /\ forall score,
       filter (fun v => lcv_score (initial 3) 1 ∅ v = score) [0; 2; 1]%Z
       = filter (fun v => lcv_score (initial 3) 1 ∅ v = score)
                (domains (initial 3) !!! 1).
Proof.
  assert (H : order_domain_values 1 ∅ (initial 3)
              = Ret ([0; 2; 1]%Z, initial 3)) by reflexivity.
  split; [exact H|].
  exact (order_domain_values_stable (initial 3) 1 ∅ _ _ H).
Defined.

(** ** Backtracking search *)

Section backtrack_relation.
(** A relation between the entry assignment and a returned mapping that
    holds of a mapping returned at once and is carried back through one
    committed value holds of every returned mapping. *)
Variable self : NQueensCSP.
Variable Q : gmap nat Z -> gmap nat Z -> Prop.
Hypothesis Q_done : forall a, Q a a.
Hypothesis Q_step :
  forall (a : gmap nat Z) v D val x,
    a !! v = None -> domains self !! v = Some D -> val ∈ D ->
    is_consistent v val a = true ->
    Q (<[v := val]> a) x -> Q a x.

Lemma try_values_relation rec variable D :
  (forall a r s self', rec a self = Ret ((Some r, s), self') -> Q a r) ->
  (forall a, backtrack_post self a (rec a self)) ->
  domains self !! variable = Some D ->
  forall values (a : gmap nat Z) r s self',
    (forall val, val ∈ values -> val ∈ D) ->
    a !! variable = None ->
    try_values rec variable values a self = Ret ((Some r, s), self') ->
    Q a r.
Proof.
  intros Hrel Hpost HD.
  induction values as [|value values IH]; intros a r s self' Hin Ha H;
    simpl in H; [discriminate|].
  assert (Hin' : forall val, val ∈ values -> val ∈ D)
    by (intros val Hval; apply Hin; by right).
  destruct (is_consistent variable value a) eqn:Hc; [|by eapply IH].
  apply bind_Ret_inv in H as ([r0 s0] & s1 & Hrec & H).
  pose proof (Hpost (<[variable := value]> a)) as Hp.
  rewrite Hrec in Hp. destruct Hp as [-> Hp]. destruct r0 as [x|].
  - injection H as <- _ _.
    eapply Q_step; [done|done|apply Hin; by left|done|by eapply Hrel].
  - subst s0.
    rewrite lookup_insert_eq, delete_insert_eq, delete_id in H by done.
    by eapply IH.
Qed.

Lemma backtrack_relation fuel :
  forall a r s self', _backtrack fuel a self = Ret ((Some r, s), self') -> Q a r.
Proof.
  induction fuel as [|fuel IH]; intros a r s self' H; simpl in H;
    [discriminate|].
  unfold bind at 1, gets at 1 in H.
  destruct (size a =? length (domains self)).
  { injection H as <- _ _. apply Q_done. }
  apply bind_Ret_inv in H as (variable & s1 & Hsel & H).
  apply select_unassigned_variable_inv in Hsel as (-> & Hvar & _).
  apply elem_of_unassigned_vars in Hvar as [Hlt Hnone].
  apply bind_Ret_inv in H as (values & s1 & Hord & H).
  apply order_domain_values_inv in Hord as (-> & D & HD & ->).
  eapply (try_values_relation (_backtrack fuel) variable D);
    [exact IH|intros a'; apply backtrack_post_holds|exact HD| |exact Hnone
    |exact H].
  intros val Hval. by rewrite sorted_desc_perm in Hval.
Qed.
End backtrack_relation.

Lemma backtrack_drawn_from self fuel (a : gmap nat Z) r s self' :
  _backtrack fuel a self = Ret ((Some r, s), self') -> drawn_from self a r.
Proof.
  apply (backtrack_relation self (drawn_from self)).
  - intros a0 k v Hk. by left.
  - intros a0 v D val x Hnone HD Hval _ Hx k v0 Hk.
    destruct (Hx k v0 Hk) as [Hl|Hr]; [|by right].
    apply lookup_insert_Some in Hl as [[<- <-]|[_ Hl]]; [|by left].
    right. split; [by eapply lookup_lt_Some|].
    by rewrite (list_lookup_total_correct _ _ _ HD).
Qed.

Lemma backtracking_search_drawn_from self a self' :
  backtracking_search self = Ret (Some a, self') ->
  forall k r,
    a !! k = Some r ->
    k < length (domains self) /\ r ∈ domains self !!! k.
Proof.
  intros H k r Hk. apply backtracking_search_inv in H as [s H].
  apply backtrack_drawn_from in H. destruct (H k r Hk) as [Hl|Hr]; [|done].
  by rewrite lookup_empty in Hl.
Qed.

(** X15.  Every row of an assignment that [backtracking_search] returns
    is an entry of the domain of its column, and the assigned keys are
    the columns. *)
Theorem search_rows_from_domains self a self' :
  backtracking_search self = Ret (Some a, self') ->
  forall k r,
    a !! k = Some r ->
    k < length (domains self) /\ r ∈ domains self !!! k.
Proof. apply backtracking_search_drawn_from. Qed.

Lemma search_rows_from_domains_witness :
  backtracking_search (initial 4) = Ret (Some solution_4, initial 4)
  /\ forall k r,
       solution_4 !! k = Some r ->
       k < length (domains (initial 4)) /\ r ∈ domains (initial 4) !!! k.
Proof.
  assert (H : backtracking_search (initial 4)
              = Ret (Some solution_4, initial 4))
    by (vm_compute; reflexivity).
  split; [exact H|].
  exact (search_rows_from_domains (initial 4) solution_4 (initial 4) H).
Defined.

Section completeness.
(** The search cannot miss a solution [x] whose rows are in the domains:
    from any partial assignment that [x] extends it returns a mapping. *)
Variable self : NQueensCSP.
Variable x : gmap nat Z.
Hypothesis x_solution : solution_in_domains self x.

Lemma solution_consistent (a : gmap nat Z) v xv :
  a ⊆ x -> a !! v = None -> x !! v = Some xv ->
  is_consistent v xv a = true.
Proof.
  intros Hsub Hnone Hxv. apply is_consistent_spec. intros var val Hl.
  destruct x_solution as [[_ Hna] _].
  apply (Hna var v val xv); [by eapply lookup_weaken|done|].
  intros ->. congruence.
Qed.

Lemma try_values_finds rec variable (a : gmap nat Z) xv :
  a !! variable = None ->
  (forall a', backtrack_post self a' (rec a' self)) ->
  (forall value, exists res, rec (<[variable := value]> a) self = Ret res) ->
  is_consistent variable xv a = true ->
  (exists r, rec (<[variable := xv]> a) self = Ret ((Some r, r), self)) ->
  forall values,
    xv ∈ values ->
    exists r, try_values rec variable values a self = Ret ((Some r, r), self).
Proof.
  intros Ha Hpost Hret Hc [rx Hrx].
  induction values as [|value values IH]; intros Hin;
    [by apply elem_of_nil in Hin|]. simpl.
  destruct (decide (value = xv)) as [->|Hne].
  { rewrite Hc. unfold bind. rewrite Hrx. by exists rx. }
  apply elem_of_cons in Hin as [->|Hin]; [done|].
  destruct (is_consistent variable value a); [|by apply IH].
  destruct (Hret value) as [[[r0 s0] s1] Hres].
  pose proof (Hpost (<[variable := value]> a)) as Hp.
  rewrite Hres in Hp. destruct Hp as [-> Hp].
  unfold bind. rewrite Hres. destruct r0 as [y|].
  - destruct Hp as (-> & _). by exists s0.
  - subst s0. rewrite lookup_insert_eq, delete_insert_eq, delete_id by done.
    by apply IH.
Qed.

Lemma backtrack_complete fuel :
  forall a : gmap nat Z,
    keys_in_range (length (domains self)) a ->
    length (unassigned_vars self a) < fuel ->
    a ⊆ x ->
    exists r, _backtrack fuel a self = Ret ((Some r, r), self).
Proof.
  induction fuel as [|fuel IH]; intros a Hk Hfuel Hsub; [lia|]. simpl.
  unfold bind at 1, gets at 1.
  destruct (size a =? length (domains self)) eqn:E; [by exists a|].
  apply Nat.eqb_neq in E.
  destruct (full_or_unassigned self a Hk E) as [u Hu].
  destruct (select_unassigned_variable_Some a self u Hu) as [variable Hsel].
  rewrite (bind_Ret _ _ _ _ _ Hsel).
  apply select_unassigned_variable_inv in Hsel as (_ & Hvar & _).
  pose proof Hvar as Hvar'.
  apply elem_of_unassigned_vars in Hvar' as [Hlt Hnone].
  destruct (lookup_lt_is_Some_2 _ _ Hlt) as [D HD].
  rewrite (bind_Ret _ _ _ _ _ (order_domain_values_Some _ a _ _ HD)).
  destruct x_solution as [[Htot Hna] Hdom].
  destruct (Htot variable Hlt) as [xv Hxv].
  assert (Hk' : forall value,
    keys_in_range (length (domains self)) (<[variable := value]> a)).
  { intros value k Hk'.
    apply lookup_insert_is_Some in Hk' as [<-|[_ Hk']]; auto. }
  assert (Hfuel' : forall value,
    length (unassigned_vars self (<[variable := value]> a)) < fuel).
  { intros value.
    pose proof (unassigned_insert_length self a variable value Hvar). lia. }
  apply (try_values_finds (_backtrack fuel) variable a xv).
  - done.
  - intros a'. apply backtrack_post_holds.
  - intros value. by apply backtrack_returns.
  - by apply solution_consistent.
  - apply IH; [done..|]. by apply insert_subseteq_l.
  - rewrite sorted_desc_perm. rewrite <- (list_lookup_total_correct _ _ _ HD).
    by apply Hdom.
Qed.
End completeness.


Lemma backtracking_search_complete self self' :
  backtracking_search self = Ret (None, self') ->
  forall x, ~ solution_in_domains self x.
Proof.
  intros H x Hx. apply backtracking_search_inv in H as [s H].
  destruct (backtrack_complete self x Hx (S (length (domains self))) ∅)
    as [r Hr].
  - intros k [v Hv]. by rewrite lookup_empty in Hv.
  - pose proof (length_unassigned_vars self ∅). lia.
  - apply map_empty_subseteq.
  - congruence.
Qed.

(** X17.  The search is complete: when [backtracking_search] returns
    [None], no complete non-attacking placement with rows taken from the
    domains exists. *)
Theorem search_none_means_no_solution self self' :
  backtracking_search self = Ret (None, self') ->
  forall x, ~ solution_in_domains self x.
Proof. apply backtracking_search_complete. Qed.

Lemma search_none_means_no_solution_witness :
  backtracking_search (initial 3) = Ret (None, initial 3)
  /\ forall x, ~ solution_in_domains (initial 3) x.
Proof.
  assert (H : backtracking_search (initial 3) = Ret (None, initial 3))
    by (vm_compute; reflexivity).
  split; [exact H|].
  exact (search_none_means_no_solution (initial 3) (initial 3) H).
Defined.

(** ** The driver *)

Lemma print_rows_total (a : gmap nat Z) cols self :
  (forall i, i ∈ cols -> is_Some (a !! i)) ->
  print_rows a cols self
  = Ret ((fun i => PrintPair (Z.of_nat i + 1) (a !!! i + 1)) <$> cols, self).
Proof.
  induction cols as [|i cols IH]; intros Hall; [done|]. simpl.
  destruct (Hall i) as [r Hr]; [by left|]. rewrite Hr.
  assert (Hrest : forall k, k ∈ cols -> is_Some (a !! k))
    by (intros k Hk; apply Hall; by right).
  rewrite (bind_Ret _ _ _ _ _ (IH Hrest)).
  unfold ret. by rewrite (lookup_total_correct _ _ _ Hr).
Qed.

(** The driver on the state [read_input] builds, given what the search
    returns there. *)
Lemma solve_with_search (queen_cols : list Z) r :
  backtracking_search (initial (length queen_cols))
  = Ret (r, initial (length queen_cols)) ->
  solve_with backtracking_search queen_cols (initial (length queen_cols))
  = Ret (match r with
         | Some a => solution_report (length queen_cols) a
         | None => [PrintStr "No solution found"]
         end, initial (length queen_cols)).
Proof.
  intros Hsearch. unfold solve_with.
  rewrite (bind_Ret _ _ _ _ _ (AC3_initial _)).
  rewrite (bind_Ret _ _ _ _ _ Hsearch).
  destruct r as [a|]; [|done].
  apply backtracking_search_valid in Hsearch as [_ [Htot _]].
  rewrite length_initial in Htot.
  assert (Hall : forall i, i ∈ seq 0 (length queen_cols) -> is_Some (a !! i)).
  { intros i Hi. apply Htot. apply elem_of_seq in Hi. lia. }
  by rewrite (bind_Ret _ _ _ _ _ (print_rows_total a _ _ Hall)).
Qed.

Lemma solve_nqueens_search (queen_cols : list Z) self0 r :
  backtracking_search (initial (length queen_cols))
  = Ret (r, initial (length queen_cols)) ->
  solve_nqueens queen_cols self0
  = Ret (match r with
         | Some a => solution_report (length queen_cols) a
         | None => [PrintStr "No solution found"]
         end, initial (length queen_cols)).
Proof.
  intros Hsearch. unfold solve_nqueens, bind at 1, read_input.
  by apply solve_with_search.
Qed.


(** X19.  What [solve_nqueens] prints depends on the number of input
    lines only: neither the numbers in the file nor what the object held
    before make a difference. *)
Theorem solve_nqueens_reads_length_only
    (queen_cols queen_cols' : list Z) (self0 self0' : NQueensCSP) :
  length queen_cols = length queen_cols' ->
  solve_nqueens queen_cols self0 = solve_nqueens queen_cols' self0'.
Proof.
  intros Hlen.
  destruct (backtracking_search_returns (initial (length queen_cols)))
    as [r Hsearch].
  rewrite (solve_nqueens_search queen_cols self0 r Hsearch).
  rewrite Hlen in *.
  by rewrite (solve_nqueens_search queen_cols' self0' r Hsearch).
Qed.

Lemma solve_nqueens_reads_length_only_witness :
  length [3; 1; 4]%Z = length [0; 0; 0]%Z
  /\ solve_nqueens [3; 1; 4]%Z __init__
     = solve_nqueens [0; 0; 0]%Z (initial 5).
Proof.
  assert (H : length [3; 1; 4]%Z = length [0; 0; 0]%Z) by reflexivity.
  split; [exact H|].
  exact (solve_nqueens_reads_length_only [3; 1; 4]%Z [0; 0; 0]%Z
           __init__ (initial 5) H).
Defined.

(** ** [read_input] *)

Lemma flat_map_NoDup {A B} (f : A -> list B) (l : list A) :
  NoDup l ->
  (forall x, x ∈ l -> NoDup (f x)) ->
  (forall x y z, x ∈ l -> y ∈ l -> z ∈ f x -> z ∈ f y -> x = y) ->
  NoDup (flat_map f l).
Proof.
  induction 1 as [|x l Hx Hl IH]; intros Hf Hinj; simpl; [constructor|].
  apply NoDup_app. split; [apply Hf; by left|]. split.
  - intros z Hz Hz'. apply list_elem_of_In, in_flat_map in Hz'
      as (y & Hy & Hzy). apply list_elem_of_In in Hy, Hzy.
    assert (x = y) as -> by (eapply Hinj; [by left|by right|done..]).
    done.
  - apply IH.
    + intros y Hy. apply Hf. by right.
    + intros y1 y2 z H1 H2. apply Hinj; by right.
Qed.

Lemma arcs_from n i :
  flat_map (fun j => if negb (i =? j) then [(i, j)] else []) (seq 0 n)
  = pair i <$> filter (fun j => i <> j) (seq 0 n).
Proof.
  induction (seq 0 n) as [|j l IH]; [done|]. simpl.
  rewrite filter_cons, IH. destruct (i =? j) eqn:E; simpl.
  - apply Nat.eqb_eq in E. by rewrite decide_False by (intros ?; done).
  - apply Nat.eqb_neq in E. by rewrite decide_True.
Qed.

(** X20.  [read_input] discards what the object held and leaves [n]
    domains, each [range(n)], and as constraints every ordered pair of
    two different columns, each pair once. *)
Theorem read_input_builds (queen_cols : list Z) (self0 : NQueensCSP) :
  exists self,
    read_input queen_cols self0 = Ret (queen_cols, self)
    /\ length (domains self) = length queen_cols
    /\ (forall i, i < length queen_cols ->
          domains self !! i = Some (range (length queen_cols)))
    /\ (forall i j,
          (i, j) ∈ constraints self
          <-> i < length queen_cols /\ j < length queen_cols /\ i <> j)
    /\ NoDup (constraints self).
Proof.
  exists (initial (length queen_cols)). split; [done|].
  split; [apply length_initial|]. split; [apply lookup_initial|].
  split; [intros i j; apply elem_of_all_arcs|].
  simpl. unfold all_arcs. apply flat_map_NoDup.
  - apply NoDup_seq.
  - intros i _. rewrite arcs_from.
    apply NoDup_fmap_2; [intros ? ? [= ->]; done|].
    apply NoDup_filter, NoDup_seq.
  - intros i1 i2 [a b] _ _ H1 H2. rewrite arcs_from in H1, H2.
    apply list_elem_of_fmap in H1 as (? & [= -> ->] & _).
    by apply list_elem_of_fmap in H2 as (? & [= -> _] & _).
Qed.
